(** * TeamCarpool: the assignment engine and the manual override of [App.tsx]

    A shallow embedding of the carpool logic of [src/App.tsx]:
    - [isAllowed] / [getPreference]  (the eligibility lookups of [generateCarpool]),
    - the capacity buckets and the greedy pass of [generateCarpool],
    - [toggleDriver]                 (creation of per-event availability records),
    - [handleDrop]                   (the drag-and-drop override of [CarpoolBoard]),
    - the event screen as a whole    ([navigateToEvent], the local lists of
                                      [EventDetail] and their reload),
    - the roster and event handlers  ([savePlayer], [deleteItem], [createEvent],
                                      [deleteEvent], [saveAttendance]).

    JavaScript values are modelled as follows.
    - [ID] is [string].
    - Seat counts are JavaScript numbers as they come out of [localStorage].
      The driver form stores [parseInt] of its field: an integer, or [NaN]
      for an empty field; [DB.set] writes the record with [JSON.stringify],
      which turns [NaN] into [null], and every reader of a record gets it
      from [DB.get], i.e. [JSON.parse].  A seat count that reaches the
      generator is therefore a double of integer value, [null], or missing
      ([undefined]); [NaN] appears as the result of [--] on [undefined].
      [jsnum] has these four kinds of value; [JNum z] is the double whose
      value is the integer [z], and [--] is the decrement of doubles, which
      rounds above 2^53.
    - [Math.random] (behind [generateId]) is an oracle [rnd : nat -> ID]:
      [rnd k] is the value of the k-th call of [generateId] in a run.
    - [localStorage] is the record of its tables; [alert] appends to a log
      of messages. *)

From Stdlib Require Import List ZArith Bool String Lia Permutation.
From Stdlib Require Import DecimalString.
Import ListNotations.

Local Open Scope string_scope.
Local Open Scope list_scope.
Local Open Scope Z_scope.

(* ------------------------------------------------------------------------- *)
(** ** JavaScript numbers used as seat counters *)

Inductive jsnum : Type :=
| JNum (z : Z)
| JUndefined
| JNaN
| JNull.

(** [x <= 0]: a comparison with [undefined] or [NaN] is [false]; [null]
    converts to [0]. *)
Definition js_le0 (x : jsnum) : bool :=
  match x with
  | JNum z => z <=? 0
  | JUndefined => false
  | JNaN => false
  | JNull => true
  end.

(** The double nearest to the integer [z] (round to nearest, ties to the
    even significand of 53 bits).  Every integer up to 2^53 in absolute
    value is a double; above, the doubles are the multiples of [2^e] with
    [e = log2 |z| - 52]. *)
Definition double_round (z : Z) : Z :=
  let a := Z.abs z in
  if a <=? 2 ^ 53 then z
  else
    let e := Z.log2 a - 52 in
    let q := a / 2 ^ e in
    let r := a mod 2 ^ e in
    let half := 2 ^ (e - 1) in
    let q' := if r <? half then q
              else if half <? r then q + 1
              else if Z.even q then q else q + 1 in
    Z.sgn z * (q' * 2 ^ e).

(** [x--]: the double [x - 1].  [undefined] converts to [NaN], and
    [NaN - 1] is [NaN]; [null] converts to [0]. *)
Definition js_dec (x : jsnum) : jsnum :=
  match x with
  | JNum z => JNum (double_round (z - 1))
  | JUndefined => JNaN
  | JNaN => JNaN
  | JNull => JNum (-1)
  end.



(* ------------------------------------------------------------------------- *)
(** ** Data types (the interfaces of [App.tsx]) *)

(** [type ID = string] *)
Abbreviation ID := string (only parsing).

Inductive preference : Type := none | prefer | always.

Inductive direction : Type := dir_to | dir_from | dir_both.

Module Player.
Record t : Type := mk {
  id : ID;
  name : string;
  teamName : string;
  grade : string;
  needsChildSeat : bool;
  groupIds : list ID
}.
End Player.

Module Driver.
Record t : Type := mk {
  id : ID;
  name : string;
  hasLicense : bool;
  maxSeatsTotal : jsnum;
  maxChildSeats : jsnum;
  notes : string
}.
End Driver.

Module Eligibility.
Record t : Type := mk {
  driverId : ID;
  playerId : ID;
  allowed : bool;
  preference : preference
}.
End Eligibility.

Module EventAttendance.
Record t : Type := mk {
  eventId : ID;
  playerId : ID;
  isGoing : bool;
  needsRide : bool
}.
End EventAttendance.

Module EventDriver.
Record t : Type := mk {
  eventId : ID;
  driverId : ID;
  isDriving : bool;
  direction : direction;
  availableSeatsTotal : jsnum;
  availableChildSeats : jsnum;
  notes : string
}.
End EventDriver.

Module Assignment.
Record t : Type := mk {
  id : ID;
  eventId : ID;
  driverId : ID;   (* "unassigned" if unassigned *)
  playerId : ID;
  direction : direction
}.
End Assignment.

(** The sentinel driver id of an unassigned player. *)
Definition unassigned : ID := "unassigned".

(** A capacity bucket: the availability record it spreads ([...d]) and the
    three scratch fields the engine adds. *)
Module Bucket.
Record t : Type := mk {
  base : EventDriver.t;
  remainingSeats : jsnum;
  remainingChildSeats : jsnum;
  assignedPlayerIds : list ID
}.
Definition driverId (b : t) : ID := EventDriver.driverId (base b).
End Bucket.

(* ------------------------------------------------------------------------- *)
(** ** Array helpers *)

(** [arr[i]] for a number [i]: [undefined] ([None]) out of range. *)
Definition js_index {A : Type} (l : list A) (i : Z) : option A :=
  if i <? 0 then None else nth_error l (Z.to_nat i).

(** In-place update of slot [i]. *)
Fixpoint update {A : Type} (i : nat) (f : A -> A) (l : list A) : list A :=
  match l, i with
  | [], _ => []
  | x :: t, O => f x :: t
  | x :: t, S j => x :: update j f t
  end.

(** [arr.forEach((x, idx) => ...)] with the state the callback mutates. *)
Fixpoint forEach_from {A S : Type} (f : S -> A -> Z -> S) (idx : Z)
         (l : list A) (s : S) : S :=
  match l with
  | [] => s
  | x :: t => forEach_from f (idx + 1) t (f s x idx)
  end.

Definition forEach {A S : Type} (f : S -> A -> Z -> S) (l : list A) (s : S) : S :=
  forEach_from f 0 l s.

(** [Array.prototype.sort] with a comparator: ECMAScript requires the sort
    to be stable; it is modelled by a stable insertion sort, which places
    an element before the first later element it does not compare greater
    than. *)
Section Sort.
Context {A : Type} (cmp : A -> A -> Z).

Fixpoint insert (x : A) (l : list A) : list A :=
  match l with
  | [] => [x]
  | y :: t => if cmp x y <=? 0 then x :: y :: t else y :: insert x t
  end.

Fixpoint js_sort (l : list A) : list A :=
  match l with
  | [] => []
  | x :: t => insert x (js_sort t)
  end.
End Sort.

(** Template-literal rendering of an array length. *)
Definition string_of_nat (n : nat) : string :=
  NilEmpty.string_of_uint (Nat.to_uint n).

(* ------------------------------------------------------------------------- *)
(** ** Eligibility lookups ([isAllowed], [getPreference]) *)

Definition rule_matches (did pid : ID) (e : Eligibility.t) : bool :=
  (Eligibility.driverId e =? did)%string && (Eligibility.playerId e =? pid)%string.

Definition isAllowed (allEligibility : list Eligibility.t) (did pid : ID) : bool :=
  match find (rule_matches did pid) allEligibility with
  | Some rule => Eligibility.allowed rule
  | None => true (* allowed by default *)
  end.

Definition getPreference (allEligibility : list Eligibility.t) (did pid : ID)
  : preference :=
  match find (rule_matches did pid) allEligibility with
  | Some rule => Eligibility.preference rule
  | None => none
  end.

(* ------------------------------------------------------------------------- *)
(** ** [toggleDriver] *)

Inductive toggle_field : Type :=
| FIsDriving
| FDirection (value : direction).

(** The new [localEventDrivers]; [None] when [driverDef] is [undefined] and
    the default record has to read its fields (a [TypeError]). *)
Definition toggleDriver (eventId : ID) (allDrivers : list Driver.t)
           (localEventDrivers : list EventDriver.t)
           (did : ID) (field : toggle_field) : option (list EventDriver.t) :=
  let driverDef := find (fun d => (Driver.id d =? did)%string) allDrivers in
  let existing :=
    match find (fun d => (EventDriver.driverId d =? did)%string) localEventDrivers with
    | Some e => Some e
    | None =>
        match driverDef with
        | Some dd =>
            Some (EventDriver.mk eventId did false dir_both
                    (Driver.maxSeatsTotal dd) (Driver.maxChildSeats dd) "")
        | None => None
        end
    end in
  match existing with
  | None => None
  | Some ex =>
      let updated :=
        match field with
        | FIsDriving =>
            EventDriver.mk (EventDriver.eventId ex) (EventDriver.driverId ex)
              (negb (EventDriver.isDriving ex)) (EventDriver.direction ex)
              (EventDriver.availableSeatsTotal ex) (EventDriver.availableChildSeats ex)
              (EventDriver.notes ex)
        | FDirection value =>
            EventDriver.mk (EventDriver.eventId ex) (EventDriver.driverId ex)
              (EventDriver.isDriving ex) value
              (EventDriver.availableSeatsTotal ex) (EventDriver.availableChildSeats ex)
              (EventDriver.notes ex)
        end in
      Some (filter (fun d => negb (EventDriver.driverId d =? did)%string)
                   localEventDrivers ++ [updated])
  end.

(* ------------------------------------------------------------------------- *)
(** ** The generator ([generateCarpool]) *)

(** 1. Participants. *)
Definition goingPlayers (allPlayers : list Player.t)
           (localAttendance : list EventAttendance.t) : list Player.t :=
  filter (fun p =>
            match find (fun a => (EventAttendance.playerId a =? Player.id p)%string)
                       localAttendance with
            | Some att => EventAttendance.isGoing att && EventAttendance.needsRide att
            | None => false
            end) allPlayers.

Definition activeDrivers (localEventDrivers : list EventDriver.t)
  : list EventDriver.t :=
  filter EventDriver.isDriving localEventDrivers.

(** 2. Driver capacity buckets. *)
Definition mkBucket (d : EventDriver.t) : Bucket.t :=
  Bucket.mk d (EventDriver.availableSeatsTotal d)
            (EventDriver.availableChildSeats d) [].

Definition mkBuckets (active : list EventDriver.t) : list Bucket.t :=
  map mkBucket active.

(** 3. The sort comparator and the sorted candidates. *)
Definition childSeatFirst (a b : Player.t) : Z :=
  if Bool.eqb (Player.needsChildSeat a) (Player.needsChildSeat b) then 0
  else if Player.needsChildSeat a then -1 else 1.

Definition sortedPlayers (going : list Player.t) : list Player.t :=
  js_sort childSeatFirst going.

(** The callback of [buckets.forEach]: the pair is
    [(bestDriverIndex, bestScore)]. *)
Definition consider (allEligibility : list Eligibility.t) (player : Player.t)
           (best : Z * Z) (bucket : Bucket.t) (idx : Z) : Z * Z :=
  if js_le0 (Bucket.remainingSeats bucket) then best
  else if Player.needsChildSeat player && js_le0 (Bucket.remainingChildSeats bucket)
  then best
  else if negb (isAllowed allEligibility (Bucket.driverId bucket) (Player.id player))
  then best
  else
    let score := 10 in
    let pref := getPreference allEligibility (Bucket.driverId bucket) (Player.id player) in
    let score := match pref with always => score + 50 | _ => score end in
    let score := match pref with prefer => score + 20 | _ => score end in
    if score >? snd best then (idx, score) else best.

Definition findBest (allEligibility : list Eligibility.t) (buckets : list Bucket.t)
           (player : Player.t) : Z * Z :=
  forEach (consider allEligibility player) buckets (-1, -1).

(** The state the loop over [sortedPlayers] mutates. *)
Record LoopState : Type := mkLoop {
  buckets : list Bucket.t;
  newAssignments : list Assignment.t;
  unassignedIds : list ID;
  idsDrawn : nat   (* calls of [generateId] so far *)
}.

(** The three mutations of the winning bucket. *)
Definition seat (player : Player.t) (b : Bucket.t) : Bucket.t :=
  let b1 := Bucket.mk (Bucket.base b) (js_dec (Bucket.remainingSeats b))
                      (Bucket.remainingChildSeats b) (Bucket.assignedPlayerIds b) in
  let b2 := if Player.needsChildSeat player
            then Bucket.mk (Bucket.base b1) (Bucket.remainingSeats b1)
                           (js_dec (Bucket.remainingChildSeats b1))
                           (Bucket.assignedPlayerIds b1)
            else b1 in
  Bucket.mk (Bucket.base b2) (Bucket.remainingSeats b2) (Bucket.remainingChildSeats b2)
            (Bucket.assignedPlayerIds b2 ++ [Player.id player]).

Section Generator.
Variable rnd : nat -> ID.
Variable eventId : ID.
Variable allEligibility : list Eligibility.t.

(** One iteration of [for (const player of sortedPlayers)].  [None] is the
    [TypeError] of reading a field of [buckets[bestDriverIndex]] when that
    slot is [undefined]. *)
Definition processPlayer (st : LoopState) (player : Player.t) : option LoopState :=
  let bestDriverIndex := fst (findBest allEligibility (buckets st) player) in
  if negb (bestDriverIndex =? -1) then
    match js_index (buckets st) bestDriverIndex with
    | None => None
    | Some b =>
        Some (mkLoop
                (update (Z.to_nat bestDriverIndex) (seat player) (buckets st))
                (newAssignments st ++
                   [Assignment.mk (rnd (idsDrawn st)) eventId
                      (Bucket.driverId (seat player b)) (Player.id player) dir_both])
                (unassignedIds st)
                (S (idsDrawn st)))
    end
  else
    Some (mkLoop
            (buckets st)
            (newAssignments st ++
               [Assignment.mk (rnd (idsDrawn st)) eventId unassigned
                  (Player.id player) dir_both])
            (unassignedIds st ++ [Player.id player])
            (S (idsDrawn st))).

Fixpoint processPlayers (st : LoopState) (players : list Player.t)
  : option LoopState :=
  match players with
  | [] => Some st
  | player :: rest =>
      match processPlayer st player with
      | None => None
      | Some st' => processPlayers st' rest
      end
  end.

(** Lines 663-746: buckets, sort and the pass. *)
Definition runPass (active : list EventDriver.t) (going : list Player.t)
  : option LoopState :=
  processPlayers (mkLoop (mkBuckets active) [] [] O) (sortedPlayers going).
End Generator.

(** The part of the application state the two handlers read and write. *)
Inductive tab : Type := TabAttendance | TabDrivers | TabCarpool.

Record World : Type := mkWorld {
  stored : list Assignment.t;   (* DB.get('assignments') *)
  shown : list Assignment.t;    (* the [assignments] prop: the event's rows *)
  currentTab : tab;
  alerts : list string
}.

(** [refreshData()] of [EventDetail], i.e. [navigateToEvent(currentEventId)],
    on the assignments.  [World] holds the assignments only: the reload also
    replaces the attendance and availability lists of the screen, which
    [World] does not have; [Screen.refreshData] below is the whole reload,
    and [World] is the projection [Screen.world] of a screen. *)
Definition refreshData (eventId : ID) (w : World) : World :=
  mkWorld (stored w)
          (filter (fun a => (Assignment.eventId a =? eventId)%string) (stored w))
          (currentTab w) (alerts w).

Definition alert (msg : string) (w : World) : World :=
  mkWorld (stored w) (shown w) (currentTab w) (alerts w ++ [msg]).

Definition noDriversMessage : string := "No drivers marked for this event!".

Definition generatedMessage (n : nat) : string :=
  ("Carpool generated. " ++ string_of_nat n ++ " players unassigned.")%string.

Definition generateCarpool (rnd : nat -> ID) (eventId : ID)
           (allPlayers : list Player.t) (allEligibility : list Eligibility.t)
           (localAttendance : list EventAttendance.t)
           (localEventDrivers : list EventDriver.t) (w : World) : option World :=
  let going := goingPlayers allPlayers localAttendance in
  let active := activeDrivers localEventDrivers in
  if (List.length active =? 0)%nat then Some (alert noDriversMessage w)
  else
    match runPass rnd eventId allEligibility active going with
    | None => None
    | Some st =>
        let otherAssignments :=
          filter (fun a => negb (Assignment.eventId a =? eventId)%string) (stored w) in
        let w1 := mkWorld (otherAssignments ++ newAssignments st)
                          (shown w) (currentTab w) (alerts w) in
        let w2 := refreshData eventId w1 in
        let w3 := mkWorld (stored w2) (shown w2) TabCarpool (alerts w2) in
        Some (alert (generatedMessage (List.length (unassignedIds st))) w3)
    end.

(* ------------------------------------------------------------------------- *)
(** ** The manual override ([handleDrop] of [CarpoolBoard]) *)

(** [!draggedPlayerId]: [null] and the empty string are falsy. *)
Definition falsy (draggedPlayerId : option ID) : bool :=
  match draggedPlayerId with
  | None => true
  | Some s => (s =? "")%string
  end.

(** The props of [CarpoolBoard] other than the assignments, which live in
    [World]; [handleDrop] closes over all of them. *)
Record BoardProps : Type := mkBoard {
  boardEventId : ID;
  eventDrivers : list EventDriver.t;
  players : list Player.t;
  drivers : list Driver.t
}.

(** The new world and the new value of the [draggedPlayerId] state. *)
Definition handleDrop (rnd : nat -> ID) (props : BoardProps)
           (draggedPlayerId : option ID) (targetDriverId : ID) (w : World)
  : World * option ID :=
  if falsy draggedPlayerId then (w, draggedPlayerId)
  else
    match draggedPlayerId with
    | None => (w, draggedPlayerId)
    | Some dragged =>
        (* Remove old assignment *)
        let filtered :=
          filter (fun a => negb (Assignment.playerId a =? dragged)%string) (shown w) in
        (* Add new assignment *)
        let newAssign :=
          Assignment.mk (rnd O) (boardEventId props) targetDriverId dragged dir_both in
        (* Update DB *)
        let otherEvents :=
          filter (fun a => negb (Assignment.eventId a =? boardEventId props)%string)
                 (stored w) in
        let w1 := mkWorld (otherEvents ++ filtered ++ [newAssign])
                          (shown w) (currentTab w) (alerts w) in
        (refreshData (boardEventId props) w1, None)
    end.

Definition getDriverLoad (assignments : list Assignment.t) (did : ID) : nat :=
  List.length (filter (fun a => (Assignment.driverId a =? did)%string) assignments).

(* ------------------------------------------------------------------------- *)
(** ** Notions the properties are stated with *)

(** A bucket the callback of [forEach] does not skip for [player]. *)
Definition feasible (allEligibility : list Eligibility.t) (player : Player.t)
           (b : Bucket.t) : bool :=
  negb (js_le0 (Bucket.remainingSeats b))
  && (negb (Player.needsChildSeat player) || negb (js_le0 (Bucket.remainingChildSeats b)))
  && isAllowed allEligibility (Bucket.driverId b) (Player.id player).


Definition bonus (p : preference) : Z :=
  match p with
  | always => 50
  | prefer => 20
  | none => 0
  end.

Definition scoreOf (allEligibility : list Eligibility.t) (player : Player.t)
           (b : Bucket.t) : Z :=
  10 + bonus (getPreference allEligibility (Bucket.driverId b) (Player.id player)).

(** Slot [k] holds [b], the first feasible bucket of highest score. *)
Definition is_choice (allEligibility : list Eligibility.t) (player : Player.t)
           (bs : list Bucket.t) (k : nat) (b : Bucket.t) : Prop :=
  nth_error bs k = Some b /\
  feasible allEligibility player b = true /\
  (forall j b', nth_error bs j = Some b' -> feasible allEligibility player b' = true ->
                scoreOf allEligibility player b' <= scoreOf allEligibility player b) /\
  (forall j b', (j < k)%nat -> nth_error bs j = Some b' ->
                feasible allEligibility player b' = true ->
                scoreOf allEligibility player b' < scoreOf allEligibility player b).

(** An assignment without its [id]. *)
Definition forget_id (a : Assignment.t) : ID * ID * ID * direction :=
  (Assignment.eventId a, Assignment.driverId a, Assignment.playerId a,
   Assignment.direction a).


(** Every row is emitted for the candidate at the same position and carries
    the event id and direction 'both'. *)
Definition rows_track (eventId : ID) (done : list Player.t) (st : LoopState) : Prop :=
  map Assignment.playerId (newAssignments st) = map Player.id done /\
  (forall a, In a (newAssignments st) ->
             Assignment.eventId a = eventId /\ Assignment.direction a = dir_both) /\
  List.length (newAssignments st) = List.length done.

(** Two loop states that differ at most in the ids of their rows. *)
Definition same_but_ids (st1 st2 : LoopState) : Prop :=
  buckets st1 = buckets st2 /\
  unassignedIds st1 = unassignedIds st2 /\
  map forget_id (newAssignments st1) = map forget_id (newAssignments st2).

(** At most one assignment per (eventId, playerId). *)
Definition singleRide (l : list Assignment.t) : Prop :=
  NoDup (map (fun a => (Assignment.eventId a, Assignment.playerId a)) l).




(* ------------------------------------------------------------------------- *)
(** ** Sample data *)

Module Sample.
Definition ev : ID := "ev1".
Definition ids (k : nat) : ID := ("id" ++ string_of_nat k)%string.
Definition ids' (k : nat) : ID := ("xd" ++ string_of_nat k)%string.

Definition ann : Player.t := Player.mk "p1" "Ann" "U10" "4" true [].
Definition bob : Player.t := Player.mk "p2" "Bob" "U10" "4" false [].
Definition cy : Player.t := Player.mk "p3" "Cy" "U10" "5" false [].
Definition going (p : Player.t) : EventAttendance.t :=
  EventAttendance.mk ev (Player.id p) true true.

Definition dana : Driver.t := Driver.mk "d1" "Dana" true (JNum 4) (JNum 1) "".
Definition dana_drives : EventDriver.t :=
  EventDriver.mk ev "d1" true dir_both (JNum 2) (JNum 1) "".
Definition eli_drives : EventDriver.t :=
  EventDriver.mk ev "d2" true dir_both (JNum 3) (JNum 0) "".
Definition eli_stays : EventDriver.t :=
  EventDriver.mk ev "d2" false dir_both (JNum 3) (JNum 0) "".
(** A record without the two seat fields. *)
Definition dana_bare : EventDriver.t :=
  EventDriver.mk ev "d1" true dir_both JUndefined JUndefined "".
Definition zed_null : EventDriver.t :=
  EventDriver.mk ev "d9" true dir_both JNull JNull "".

Definition allow_d1_p2 : Eligibility.t := Eligibility.mk "d1" "p2" true prefer.
Definition deny_d1_p2 : Eligibility.t := Eligibility.mk "d1" "p2" false always.
Definition deny_d2_p2 : Eligibility.t := Eligibility.mk "d2" "p2" false none.

Definition empty : World := mkWorld [] [] TabAttendance [].
Definition row (i did pid : ID) : Assignment.t :=
  Assignment.mk i ev did pid dir_both.
Definition board : BoardProps := mkBoard ev [dana_drives] [ann; bob; cy] [dana].
(** Dana's two seats are taken; Cy is unassigned. *)
Definition full : World :=
  let rows := [row "a" "d1" "p1"; row "b" "d1" "p2"; row "c" "unassigned" "p3"] in
  mkWorld (Assignment.mk "z" "ev0" "d1" "p3" dir_both :: rows) rows TabCarpool [].
End Sample.

(* ------------------------------------------------------------------------- *)
(** ** The rest of the event screen, the roster and the stored tables *)

(** [getUnassigned] of [CarpoolBoard]. *)
Definition getUnassigned (assignments : list Assignment.t) : list Assignment.t :=
  filter (fun a => (Assignment.driverId a =? unassigned)%string) assignments.

(** [toggleAttendance]: the new [localAttendance]. *)
Inductive attendance_field : Type := FIsGoing | FNeedsRide.

Definition toggleAttendance (eventId : ID) (localAttendance : list EventAttendance.t)
           (pid : ID) (field : attendance_field) : list EventAttendance.t :=
  let existing :=
    match find (fun a => (EventAttendance.playerId a =? pid)%string) localAttendance with
    | Some a => a
    | None => EventAttendance.mk eventId pid false true
    end in
  let updated :=
    match field with
    | FIsGoing =>
        EventAttendance.mk (EventAttendance.eventId existing)
          (EventAttendance.playerId existing)
          (negb (EventAttendance.isGoing existing)) (EventAttendance.needsRide existing)
    | FNeedsRide =>
        EventAttendance.mk (EventAttendance.eventId existing)
          (EventAttendance.playerId existing)
          (EventAttendance.isGoing existing) (negb (EventAttendance.needsRide existing))
    end in
  (* Logic: if not going, cannot need ride. if going, default need ride is true. *)
  let updated :=
    match field with
    | FIsGoing =>
        if negb (EventAttendance.isGoing updated)
        then EventAttendance.mk (EventAttendance.eventId updated)
               (EventAttendance.playerId updated) (EventAttendance.isGoing updated) false
        else updated
    | FNeedsRide => updated
    end in
  let updated :=
    match field with
    | FIsGoing =>
        if EventAttendance.isGoing updated
        then EventAttendance.mk (EventAttendance.eventId updated)
               (EventAttendance.playerId updated) (EventAttendance.isGoing updated) true
        else updated
    | FNeedsRide => updated
    end in
  filter (fun a => negb (EventAttendance.playerId a =? pid)%string) localAttendance
    ++ [updated].

Module Event.
Record t : Type := mk {
  id : ID;
  name : string;
  dateTime : string;
  locationName : string;
  locationAddress : string;
  notes : string
}.
End Event.

(** The tables of [localStorage] the handlers below read and write, as
    [DB.get] returns them.  (A table that is absent or unreadable reads as
    the empty list.) *)
Record Tables : Type := mkTables {
  tc_players : list Player.t;
  tc_drivers : list Driver.t;
  tc_events : list Event.t;
  tc_attendance : list EventAttendance.t;
  tc_eventDrivers : list EventDriver.t;
  tc_assignments : list Assignment.t
}.

(** What [navigateToEvent] loads into the event-specific state of [App]. *)
Record EventView : Type := mkView {
  viewAttendance : list EventAttendance.t;
  viewEventDrivers : list EventDriver.t;
  viewAssignments : list Assignment.t
}.

Definition navigateToEvent (eventId : ID) (db : Tables) : EventView :=
  mkView
    (filter (fun a => (EventAttendance.eventId a =? eventId)%string) (tc_attendance db))
    (filter (fun e => (EventDriver.eventId e =? eventId)%string) (tc_eventDrivers db))
    (filter (fun a => (Assignment.eventId a =? eventId)%string) (tc_assignments db)).

(** [saveAttendance]: the tables after [DB.set] and the alert; the
    [refreshData()] that follows is [navigateToEvent eventId]. *)
Definition saveAttendance (eventId : ID) (localAttendance : list EventAttendance.t)
           (db : Tables) : Tables * string :=
  let fullList :=
    filter (fun a => negb (EventAttendance.eventId a =? eventId)%string)
           (tc_attendance db) in
  (mkTables (tc_players db) (tc_drivers db) (tc_events db)
            (fullList ++ localAttendance)
            (tc_eventDrivers db) (tc_assignments db),
   "Attendance saved!").

(** [createEvent]: [events] is the prop of [EventsList]; the id is the next
    draw of [generateId]. *)
Definition createEvent (rnd : nat -> ID) (events : list Event.t)
           (name dateTime locationName locationAddress notes : string)
           (db : Tables) : Tables :=
  let event := Event.mk (rnd O) name dateTime locationName locationAddress notes in
  mkTables (tc_players db) (tc_drivers db) (event :: events)
           (tc_attendance db) (tc_eventDrivers db) (tc_assignments db).

(** [deleteEvent]: [confirmed] is the answer to [confirm(...)]. *)
Definition deleteEvent (confirmed : bool) (events : list Event.t) (id : ID)
           (db : Tables) : Tables :=
  if negb confirmed then db
  else
    mkTables (tc_players db) (tc_drivers db)
      (filter (fun ev => negb (Event.id ev =? id)%string) events)
      (filter (fun a => negb (EventAttendance.eventId a =? id)%string) (tc_attendance db))
      (filter (fun a => negb (EventDriver.eventId a =? id)%string) (tc_eventDrivers db))
      (filter (fun a => negb (Assignment.eventId a =? id)%string) (tc_assignments db)).

(** [savePlayer]: [editing] tells whether [editingItem] is set. *)
Definition savePlayer (editing : bool) (player : Player.t) (db : Tables) : Tables :=
  let list := tc_players db in
  mkTables
    (if editing
     then map (fun p => if (Player.id p =? Player.id player)%string then player else p) list
     else player :: list)
    (tc_drivers db) (tc_events db) (tc_attendance db) (tc_eventDrivers db)
    (tc_assignments db).

(** [deleteItem]. *)
Inductive item_type : Type := ItemPlayers | ItemDrivers.

Definition deleteItem (confirmed : bool) (type : item_type) (id : ID) (db : Tables)
  : Tables :=
  if negb confirmed then db
  else
    match type with
    | ItemPlayers =>
        mkTables (filter (fun i => negb (Player.id i =? id)%string) (tc_players db))
                 (tc_drivers db) (tc_events db) (tc_attendance db)
                 (tc_eventDrivers db) (tc_assignments db)
    | ItemDrivers =>
        mkTables (tc_players db)
                 (filter (fun i => negb (Driver.id i =? id)%string) (tc_drivers db))
                 (tc_events db) (tc_attendance db)
                 (tc_eventDrivers db) (tc_assignments db)
    end.

(** The event screen as a whole: the tables, the event-specific state of
    [App] that [EventDetail] receives as props, and the state of
    [EventDetail] itself.  [sc_*] are the lists the source calls
    [localAttendance], [localEventDrivers] and [tab]. *)
Module Screen.
Record t : Type := mk {
  db : Tables;
  view : EventView;
  sc_localAttendance : list EventAttendance.t;
  sc_localEventDrivers : list EventDriver.t;
  sc_tab : tab;
  sc_alerts : list string
}.

(** [refreshData()], i.e. [navigateToEvent(currentEventId)]: the three
    event lists are read again, and since [attendance] and [eventDrivers]
    are then new arrays the two [useEffect] hooks reset the local lists to
    them. *)
Definition refreshData (eventId : ID) (s : t) : t :=
  let v := navigateToEvent eventId (db s) in
  mk (db s) v (viewAttendance v) (viewEventDrivers v) (sc_tab s) (sc_alerts s).

Definition alert (msg : string) (s : t) : t :=
  mk (db s) (view s) (sc_localAttendance s) (sc_localEventDrivers s)
     (sc_tab s) (sc_alerts s ++ [msg]).

Definition setAssignments (rows : list Assignment.t) (s : t) : t :=
  mk (mkTables (tc_players (db s)) (tc_drivers (db s)) (tc_events (db s))
               (tc_attendance (db s)) (tc_eventDrivers (db s)) rows)
     (view s) (sc_localAttendance s) (sc_localEventDrivers s)
     (sc_tab s) (sc_alerts s).

Definition setTab (x : tab) (s : t) : t :=
  mk (db s) (view s) (sc_localAttendance s) (sc_localEventDrivers s)
     x (sc_alerts s).

(** [generateCarpool] with everything it closes over: the roster and the
    rules are props, the attendance and the availability records are the
    local lists. *)
Definition generateCarpool (rnd : nat -> ID) (eventId : ID)
           (allPlayers : list Player.t) (allEligibility : list Eligibility.t)
           (s : t) : option t :=
  let going := goingPlayers allPlayers (sc_localAttendance s) in
  let active := activeDrivers (sc_localEventDrivers s) in
  if (List.length active =? 0)%nat then Some (alert noDriversMessage s)
  else
    match runPass rnd eventId allEligibility active going with
    | None => None
    | Some st =>
        let otherAssignments :=
          filter (fun a => negb (Assignment.eventId a =? eventId)%string)
                 (tc_assignments (db s)) in
        let s1 := setAssignments (otherAssignments ++ newAssignments st) s in
        let s2 := refreshData eventId s1 in
        let s3 := setTab TabCarpool s2 in
        Some (alert (generatedMessage (List.length (unassignedIds st))) s3)
    end.

(** [handleDrop] of the board shown on the screen: [assignments] is the
    list of the view. *)
Definition handleDrop (rnd : nat -> ID) (props : BoardProps)
           (draggedPlayerId : option ID) (targetDriverId : ID) (s : t)
  : t * option ID :=
  if falsy draggedPlayerId then (s, draggedPlayerId)
  else
    match draggedPlayerId with
    | None => (s, draggedPlayerId)
    | Some dragged =>
        let filtered :=
          filter (fun a => negb (Assignment.playerId a =? dragged)%string)
                 (viewAssignments (view s)) in
        let newAssign :=
          Assignment.mk (rnd O) (boardEventId props) targetDriverId dragged dir_both in
        let otherEvents :=
          filter (fun a => negb (Assignment.eventId a =? boardEventId props)%string)
                 (tc_assignments (db s)) in
        let s1 := setAssignments (otherEvents ++ filtered ++ [newAssign]) s in
        (refreshData (boardEventId props) s1, None)
    end.

(** The assignments of a screen. *)
Definition world (s : t) : World :=
  mkWorld (tc_assignments (db s)) (viewAssignments (view s)) (sc_tab s) (sc_alerts s).

(** The local lists hold what is stored for the event: no unsaved tick. *)
Definition saved (eventId : ID) (s : t) : Prop :=
  sc_localAttendance s = viewAttendance (navigateToEvent eventId (db s)) /\
  sc_localEventDrivers s = viewEventDrivers (navigateToEvent eventId (db s)).
End Screen.

(** The player cards of one column of the board: a row whose player is not
    in [players] renders nothing. *)
Definition columnCards (players : list Player.t) (assigned : list Assignment.t)
  : list Player.t :=
  flat_map (fun a =>
              match find (fun x => (Player.id x =? Assignment.playerId a)%string) players with
              | Some p => [p]
              | None => []
              end) assigned.

(** Sum of the loads of the columns of a list of availability records. *)
Fixpoint columnLoads (assignments : list Assignment.t) (cols : list EventDriver.t)
  : nat :=
  match cols with
  | [] => O
  | ed :: rest =>
      (getDriverLoad assignments (EventDriver.driverId ed)
       + columnLoads assignments rest)%nat
  end.

(** Further sample data. *)
Module Demo.
Definition att_ann : EventAttendance.t := EventAttendance.mk Sample.ev "p1" true false.
Definition att_bob : EventAttendance.t := EventAttendance.mk Sample.ev "p2" false false.
Definition att_other : EventAttendance.t := EventAttendance.mk "ev0" "p1" true true.
Definition game : Event.t := Event.mk Sample.ev "Away" "2026-01-10T10:00" "Lincoln" "" "".
Definition old_game : Event.t := Event.mk "ev0" "Home" "2026-01-03T10:00" "Field" "" "".
Definition tables : Tables :=
  mkTables [Sample.ann; Sample.bob; Sample.cy] [Sample.dana]
           [game; old_game] [att_ann; att_other; att_bob]
           [Sample.dana_drives; Sample.eli_stays]
           (stored Sample.full).
(** Tables in which everybody goes and Dana and Eli drive, and the screen
    right after a reload. *)
Definition saved_tables : Tables :=
  mkTables [Sample.ann; Sample.bob; Sample.cy] [Sample.dana] [game; old_game]
           [Sample.going Sample.ann; Sample.going Sample.bob; Sample.going Sample.cy]
           [Sample.dana_drives; Sample.eli_drives]
           (stored Sample.full).
Definition saved_screen : Screen.t :=
  Screen.refreshData Sample.ev
    (Screen.mk saved_tables (mkView [] [] []) [] [] TabAttendance []).
(** The stored tables on screen, with unsaved ticks: Bob and Cy go, Ann
    needs a ride, Eli drives. *)
Definition screen : Screen.t :=
  Screen.mk tables (navigateToEvent Sample.ev tables)
            [Sample.going Sample.ann; Sample.going Sample.bob; Sample.going Sample.cy]
            [Sample.dana_drives; Sample.eli_drives] TabCarpool [].
End Demo.

(** Distinctness of a list of literals. *)
Ltac nodup_concrete :=
  simpl; repeat (constructor; [simpl; intuition discriminate|]); constructor.

(* ------------------------------------------------------------------------- *)
(** ** Lists: find, update, filter *)

Lemma find_app_first {A : Type} (f : A -> bool) (pre post : list A) (r : A) :
  f r = true -> (forall e, In e pre -> f e = false) ->
  find f (pre ++ r :: post) = Some r.
Proof.
  intros Hr Hpre. induction pre as [|e pre IH]; simpl.
  - now rewrite Hr.
  - rewrite (Hpre e) by now left. apply IH. intros e' He'. apply Hpre. now right.
Qed.

Lemma nth_error_update_eq {A : Type} (f : A -> A) (l : list A) (i : nat) (x : A) :
  nth_error l i = Some x -> nth_error (update i f l) i = Some (f x).
Proof.
  revert i. induction l as [|y l IH]; intros [|i]; simpl; try discriminate.
  - now intros [= ->].
  - apply IH.
Qed.

Lemma nth_error_update_neq {A : Type} (f : A -> A) (l : list A) (i j : nat) :
  i <> j -> nth_error (update i f l) j = nth_error l j.
Proof.
  revert i j. induction l as [|y l IH]; intros [|i] [|j] Hij; simpl; try easy.
  apply IH. congruence.
Qed.

Lemma length_update {A : Type} (f : A -> A) (l : list A) (i : nat) :
  List.length (update i f l) = List.length l.
Proof.
  revert i. induction l as [|y l IH]; intros [|i]; simpl; auto.
Qed.

Lemma filter_filter_neg {A : Type} (f : A -> bool) (l : list A) :
  filter f (filter (fun a => negb (f a)) l) = [].
Proof.
  induction l as [|x l IH]; simpl; auto.
  destruct (f x) eqn:E; simpl; auto. now rewrite E.
Qed.

Lemma filter_idem {A : Type} (f : A -> bool) (l : list A) :
  filter f (filter f l) = filter f l.
Proof.
  induction l as [|x l IH]; simpl; auto.
  destruct (f x) eqn:E; simpl; auto. now rewrite E, IH.
Qed.

Lemma filter_all {A : Type} (keep : A -> bool) (xs : list A) :
  (forall x, In x xs -> keep x = true) -> filter keep xs = xs.
Proof.
  induction xs as [|x xs IH]; simpl; intros H; auto.
  rewrite (H x) by now left. f_equal. apply IH. intros y Hy. apply H. now right.
Qed.

Lemma filter_none {A : Type} (f : A -> bool) (l : list A) :
  (forall a, In a l -> f a = false) -> filter f l = [].
Proof.
  induction l as [|x l IH]; simpl; intros H; auto.
  rewrite (H x) by now left. apply IH. intros a Ha. apply H. now right.
Qed.

(* ------------------------------------------------------------------------- *)
(** ** The eligibility lookups *)

Lemma rule_matches_iff (did pid : ID) (e : Eligibility.t) :
  rule_matches did pid e = true <->
  Eligibility.driverId e = did /\ Eligibility.playerId e = pid.
Proof.
  unfold rule_matches. rewrite andb_true_iff, !String.eqb_eq. tauto.
Qed.

Lemma rule_matches_false (did pid : ID) (e : Eligibility.t) :
  ~ (Eligibility.driverId e = did /\ Eligibility.playerId e = pid) ->
  rule_matches did pid e = false.
Proof.
  intros H. destruct (rule_matches did pid e) eqn:E; auto.
  apply rule_matches_iff in E. contradiction.
Qed.

Lemma first_match_decides (pre post : list Eligibility.t) (r : Eligibility.t) :
  (forall e, In e pre ->
             ~ (Eligibility.driverId e = Eligibility.driverId r /\
                Eligibility.playerId e = Eligibility.playerId r)) ->
  isAllowed (pre ++ r :: post) (Eligibility.driverId r) (Eligibility.playerId r)
  = Eligibility.allowed r /\
  getPreference (pre ++ r :: post) (Eligibility.driverId r) (Eligibility.playerId r)
  = Eligibility.preference r.
Proof.
  intros Hpre.
  assert (F : find (rule_matches (Eligibility.driverId r) (Eligibility.playerId r))
                   (pre ++ r :: post) = Some r).
  { apply find_app_first.
    - now apply rule_matches_iff.
    - intros e He. apply rule_matches_false. now apply Hpre. }
  unfold isAllowed, getPreference. now rewrite F.
Qed.

(** C10. With several rules for one (driverId, playerId) pair, the earliest
    one in list order gives both the verdict of [isAllowed] and the
    preference of [getPreference]; the rules after it play no role. *)
Theorem earliest_rule_decides
        (pre post : list Eligibility.t) (r : Eligibility.t) (did pid : ID) :
  Eligibility.driverId r = did -> Eligibility.playerId r = pid ->
  (forall e, In e pre ->
             ~ (Eligibility.driverId e = did /\ Eligibility.playerId e = pid)) ->
  isAllowed (pre ++ r :: post) did pid = Eligibility.allowed r /\
  getPreference (pre ++ r :: post) did pid = Eligibility.preference r.
Proof.
  intros <- <- Hpre. now apply first_match_decides.
Qed.

(** Two later rules for the pair (d1, p2) that say the opposite of the
    first one are ignored. *)
Lemma earliest_rule_decides_witness :
  isAllowed ([Sample.deny_d2_p2] ++ Sample.allow_d1_p2
               :: [Sample.deny_d1_p2; Sample.deny_d1_p2]) "d1" "p2" = true /\
  getPreference ([Sample.deny_d2_p2] ++ Sample.allow_d1_p2
                   :: [Sample.deny_d1_p2; Sample.deny_d1_p2]) "d1" "p2" = prefer.
Proof.
  apply (earliest_rule_decides [Sample.deny_d2_p2] [Sample.deny_d1_p2; Sample.deny_d1_p2]
                               Sample.allow_d1_p2 "d1" "p2").
  - reflexivity.
  - reflexivity.
  - intros e [<- | []] [H _]. discriminate H.
Defined.

(* ------------------------------------------------------------------------- *)
(** ** Capacity buckets *)

Lemma mkBuckets_nth (active : list EventDriver.t) (k : nat) :
  nth_error (mkBuckets active) k = option_map mkBucket (nth_error active k).
Proof. unfold mkBuckets. apply nth_error_map. Qed.

(** C3, as stated, fails: an active record without seat fields for a driver
    whose global maxima are 4 and 1 gives a bucket whose two counters are
    [undefined], not 4 and 1. *)
Lemma bucket_fallback_counterexample :
  EventDriver.isDriving Sample.dana_bare = true /\
  EventDriver.driverId Sample.dana_bare = Driver.id Sample.dana /\
  Driver.maxSeatsTotal Sample.dana = JNum 4 /\
  Driver.maxChildSeats Sample.dana = JNum 1 /\
  mkBuckets (activeDrivers [Sample.dana_bare])
  = [Bucket.mk Sample.dana_bare JUndefined JUndefined []] /\
  ~ (forall b, In b (mkBuckets (activeDrivers [Sample.dana_bare])) ->
               Bucket.remainingSeats b = Driver.maxSeatsTotal Sample.dana /\
               Bucket.remainingChildSeats b = Driver.maxChildSeats Sample.dana).
Proof.
  repeat split; try reflexivity.
  intros H. destruct (H (mkBucket Sample.dana_bare)) as [H1 _].
  - now left.
  - discriminate H1.
Qed.

(** C3, amended. The bucket of an active record takes its two counters from
    the record's own [availableSeatsTotal] and [availableChildSeats],
    whatever they are, and the engine never reads the driver's global
    maxima. The maxima enter when [toggleDriver] creates the record of a
    driver who has none: the record gets [maxSeatsTotal] and
    [maxChildSeats], so the bucket built from it starts at these values. *)
Theorem bucket_counters_from_record
        (eventId did : ID) (allDrivers : list Driver.t)
        (localEventDrivers : list EventDriver.t) (dd : Driver.t) :
  find (fun d => (EventDriver.driverId d =? did)%string) localEventDrivers = None ->
  find (fun d => (Driver.id d =? did)%string) allDrivers = Some dd ->
  (forall led k b,
      nth_error (mkBuckets (activeDrivers led)) k = Some b ->
      exists d, nth_error (activeDrivers led) k = Some d /\
                Bucket.base b = d /\
                Bucket.remainingSeats b = EventDriver.availableSeatsTotal d /\
                Bucket.remainingChildSeats b = EventDriver.availableChildSeats d /\
                Bucket.assignedPlayerIds b = []) /\
  exists rec,
    toggleDriver eventId allDrivers localEventDrivers did FIsDriving
    = Some (localEventDrivers ++ [rec]) /\
    EventDriver.isDriving rec = true /\
    EventDriver.driverId rec = did /\
    mkBuckets (activeDrivers [rec])
    = [Bucket.mk rec (Driver.maxSeatsTotal dd) (Driver.maxChildSeats dd) []].
Proof.
  intros Hnone Hdef. split.
  - intros led k b Hb. rewrite mkBuckets_nth in Hb.
    destruct (nth_error (activeDrivers led) k) as [d|]; [|discriminate].
    injection Hb as <-. exists d. repeat split.
  - unfold toggleDriver. rewrite Hnone, Hdef. simpl.
    assert (E : filter (fun d => negb (EventDriver.driverId d =? did)%string)
                       localEventDrivers = localEventDrivers).
    { apply filter_all. intros a Ha.
      apply (find_none _ _ Hnone) in Ha. simpl in Ha. now rewrite Ha. }
    rewrite E. eexists. split; [reflexivity|]. repeat split.
Qed.

Lemma bucket_counters_from_record_witness :
  exists rec,
    toggleDriver Sample.ev [Sample.dana] [Sample.eli_drives] "d1" FIsDriving
    = Some ([Sample.eli_drives] ++ [rec]) /\
    EventDriver.isDriving rec = true /\
    EventDriver.driverId rec = "d1" /\
    mkBuckets (activeDrivers [rec]) = [Bucket.mk rec (JNum 4) (JNum 1) []].
Proof.
  apply (bucket_counters_from_record Sample.ev "d1" [Sample.dana] [Sample.eli_drives]
                                     Sample.dana); reflexivity.
Defined.

(* ------------------------------------------------------------------------- *)
(** ** The candidate order *)

Lemma childSeatFirst_needs (x y : Player.t) :
  Player.needsChildSeat x = true -> childSeatFirst x y <= 0.
Proof.
  unfold childSeatFirst. intros ->. destruct (Player.needsChildSeat y); simpl; lia.
Qed.

Lemma insert_needs (x : Player.t) (l : list Player.t) :
  Player.needsChildSeat x = true -> insert childSeatFirst x l = x :: l.
Proof.
  intros Hx. destruct l as [|y l]; simpl; auto.
  pose proof (childSeatFirst_needs x y Hx) as H.
  apply Z.leb_le in H. now rewrite H.
Qed.

Lemma insert_other (x : Player.t) (front back : list Player.t) :
  Player.needsChildSeat x = false ->
  Forall (fun p => Player.needsChildSeat p = true) front ->
  Forall (fun p => Player.needsChildSeat p = false) back ->
  insert childSeatFirst x (front ++ back) = front ++ x :: back.
Proof.
  intros Hx Hf Hb. induction Hf as [|y front Hy Hf IH]; simpl.
  - destruct Hb as [|z back Hz Hb]; simpl; auto.
    unfold childSeatFirst. now rewrite Hx, Hz.
  - unfold childSeatFirst at 1. rewrite Hx, Hy. simpl. now rewrite IH.
Qed.

Lemma Forall_filter_true {A : Type} (f : A -> bool) (l : list A) :
  Forall (fun a => f a = true) (filter f l).
Proof. apply Forall_forall. intros a Ha. now apply filter_In in Ha. Qed.

Lemma sortedPlayers_eq (going : list Player.t) :
  sortedPlayers going
  = filter Player.needsChildSeat going
      ++ filter (fun p => negb (Player.needsChildSeat p)) going.
Proof.
  unfold sortedPlayers. induction going as [|x going IH]; simpl; auto.
  rewrite IH. destruct (Player.needsChildSeat x) eqn:Hx; simpl.
  - now apply insert_needs.
  - apply insert_other; auto.
    + apply Forall_filter_true.
    + apply Forall_forall. intros a Ha. apply filter_In in Ha.
      now apply negb_true_iff.
Qed.

(* ------------------------------------------------------------------------- *)
(** ** The choice of a bucket *)

Lemma js_le0_false (x : jsnum) :
  js_le0 x = false -> forall n, x = JNum n -> 0 < n.
Proof. intros H n ->. simpl in H. lia. Qed.

Lemma consider_eq (rules : list Eligibility.t) (player : Player.t)
      (best : Z * Z) (b : Bucket.t) (idx : Z) :
  consider rules player best b idx
  = if feasible rules player b
    then if scoreOf rules player b >? snd best
         then (idx, scoreOf rules player b) else best
    else best.
Proof.
  unfold consider, feasible, scoreOf, bonus.
  destruct (js_le0 (Bucket.remainingSeats b)); simpl; auto.
  destruct (Player.needsChildSeat player); simpl.
  - destruct (js_le0 (Bucket.remainingChildSeats b)); simpl; auto.
    destruct (isAllowed rules (Bucket.driverId b) (Player.id player)); simpl; auto.
    now destruct (getPreference rules (Bucket.driverId b) (Player.id player)).
  - destruct (isAllowed rules (Bucket.driverId b) (Player.id player)); simpl; auto.
    now destruct (getPreference rules (Bucket.driverId b) (Player.id player)).
Qed.

Lemma scoreOf_ge (rules : list Eligibility.t) (player : Player.t) (b : Bucket.t) :
  10 <= scoreOf rules player b.
Proof.
  unfold scoreOf.
  destruct (getPreference rules (Bucket.driverId b) (Player.id player)); simpl; lia.
Qed.

Section Choice.
Variable rules : list Eligibility.t.
Variable player : Player.t.

(** What a scan from index [idx] with incoming best [(bi, bs)] returns:
    either nothing beats [bs], or the first feasible bucket of highest
    score does. *)
Lemma forEach_from_consider (l : list Bucket.t) :
  forall (idx bi bs : Z),
    let r := forEach_from (consider rules player) idx l (bi, bs) in
    (r = (bi, bs) /\
     forall b, In b l -> feasible rules player b = true ->
               scoreOf rules player b <= bs)
    \/
    (exists k b,
        nth_error l k = Some b /\ r = (idx + Z.of_nat k, scoreOf rules player b) /\
        feasible rules player b = true /\ bs < scoreOf rules player b /\
        (forall j b', nth_error l j = Some b' -> feasible rules player b' = true ->
                      scoreOf rules player b' <= scoreOf rules player b) /\
        (forall j b', (j < k)%nat -> nth_error l j = Some b' ->
                      feasible rules player b' = true ->
                      scoreOf rules player b' < scoreOf rules player b)).
Proof.
  induction l as [|x l IH]; intros idx bi bs; simpl.
  - left. split; [reflexivity | intros b []].
  - rewrite consider_eq. simpl snd.
    destruct (feasible rules player x) eqn:Hx;
      [destruct (scoreOf rules player x >? bs) eqn:Hgt|].
    + (* x takes the lead *)
      apply Z.gtb_lt in Hgt. right.
      destruct (IH (idx + 1) idx (scoreOf rules player x))
        as [[Hr Hle] | (k & b & Hk & Hr & Hb & Hlt & Hmax & Hfirst)].
      * exists O, x. rewrite Hr. repeat split; auto.
        -- f_equal. lia.
        -- intros [|j] b' Hj Hb'.
           ++ injection Hj as <-. lia.
           ++ apply Hle; auto. eapply nth_error_In; eauto.
        -- intros j b' Hj. lia.
      * exists (S k), b. rewrite Hr. repeat split; auto.
        -- f_equal. lia.
        -- lia.
        -- intros [|j] b' Hj Hb'.
           ++ injection Hj as <-. lia.
           ++ eapply Hmax; eauto.
        -- intros [|j] b' Hlt' Hj Hb'.
           ++ injection Hj as <-. lia.
           ++ eapply Hfirst; eauto. lia.
    + (* x is feasible but does not beat the incoming best *)
      assert (Hle : scoreOf rules player x <= bs).
      { destruct (Z.gtb_spec (scoreOf rules player x) bs); [discriminate | lia]. }
      destruct (IH (idx + 1) bi bs)
        as [[Hr Hall] | (k & b & Hk & Hr & Hb & Hlt & Hmax & Hfirst)].
      * left. split; auto. intros b [<- | Hin] Hb; auto.
      * right. exists (S k), b. rewrite Hr. repeat split; auto.
        -- f_equal. lia.
        -- intros [|j] b' Hj Hb'.
           ++ injection Hj as <-. lia.
           ++ eapply Hmax; eauto.
        -- intros [|j] b' Hlt' Hj Hb'.
           ++ injection Hj as <-. lia.
           ++ eapply Hfirst; eauto. lia.
    + (* x is skipped *)
      destruct (IH (idx + 1) bi bs)
        as [[Hr Hall] | (k & b & Hk & Hr & Hb & Hlt & Hmax & Hfirst)].
      * left. split; auto. intros b [<- | Hin] Hb; [congruence | auto].
      * right. exists (S k), b. rewrite Hr. repeat split; auto.
        -- f_equal. lia.
        -- intros [|j] b' Hj Hb'.
           ++ injection Hj as <-. congruence.
           ++ eapply Hmax; eauto.
        -- intros [|j] b' Hlt' Hj Hb'.
           ++ injection Hj as <-. congruence.
           ++ eapply Hfirst; eauto. lia.
Qed.

Lemma findBest_spec (bs : list Bucket.t) :
  (findBest rules bs player = (-1, -1) /\
   forall b, In b bs -> feasible rules player b = false)
  \/
  (exists k b, findBest rules bs player = (Z.of_nat k, scoreOf rules player b) /\
               is_choice rules player bs k b).
Proof.
  unfold findBest, forEach.
  destruct (forEach_from_consider bs 0 (-1) (-1))
    as [[Hr Hall] | (k & b & Hk & Hr & Hb & Hlt & Hmax & Hfirst)].
  - left. split; auto. intros b Hin.
    destruct (feasible rules player b) eqn:E; auto.
    pose proof (Hall b Hin E). pose proof (scoreOf_ge rules player b).
    lia.
  - right. exists k, b. split; [exact Hr|]. repeat split; auto.
Qed.

Lemma is_choice_unique (bs : list Bucket.t) (k k' : nat) (b b' : Bucket.t) :
  is_choice rules player bs k b -> is_choice rules player bs k' b' -> k = k'.
Proof.
  intros (Hk & Hb & Hmax & Hfirst) (Hk' & Hb' & Hmax' & Hfirst').
  destruct (Nat.lt_trichotomy k k') as [Hlt | [Heq | Hgt]]; auto; exfalso.
  - pose proof (Hfirst' k b Hlt Hk Hb). pose proof (Hmax k' b' Hk' Hb'). lia.
  - pose proof (Hfirst k' b' Hgt Hk' Hb'). pose proof (Hmax' k b Hk Hb). lia.
Qed.
End Choice.

Lemma js_index_of_nat {A : Type} (l : list A) (k : nat) :
  js_index l (Z.of_nat k) = nth_error l k.
Proof.
  unfold js_index. destruct (Z.ltb_spec (Z.of_nat k) 0); [lia|].
  now rewrite Nat2Z.id.
Qed.

Lemma seat_driverId (player : Player.t) (b : Bucket.t) :
  Bucket.driverId (seat player b) = Bucket.driverId b.
Proof. unfold seat, Bucket.driverId. now destruct (Player.needsChildSeat player). Qed.

Lemma seat_base (player : Player.t) (b : Bucket.t) :
  Bucket.base (seat player b) = Bucket.base b.
Proof. unfold seat. now destruct (Player.needsChildSeat player). Qed.

(** One iteration, case by case. *)
Lemma processPlayer_cases (rnd : nat -> ID) (eventId : ID)
      (rules : list Eligibility.t) (st : LoopState) (player : Player.t) :
  ((forall b, In b (buckets st) -> feasible rules player b = false) /\
   processPlayer rnd eventId rules st player
   = Some (mkLoop (buckets st)
                  (newAssignments st ++
                     [Assignment.mk (rnd (idsDrawn st)) eventId unassigned
                                    (Player.id player) dir_both])
                  (unassignedIds st ++ [Player.id player])
                  (S (idsDrawn st))))
  \/
  (exists k b,
      is_choice rules player (buckets st) k b /\
      processPlayer rnd eventId rules st player
      = Some (mkLoop (update k (seat player) (buckets st))
                     (newAssignments st ++
                        [Assignment.mk (rnd (idsDrawn st)) eventId (Bucket.driverId b)
                                       (Player.id player) dir_both])
                     (unassignedIds st)
                     (S (idsDrawn st)))).
Proof.
  unfold processPlayer.
  destruct (findBest_spec rules player (buckets st)) as [[Hr Hall] | (k & b & Hr & Hc)].
  - left. split; auto. now rewrite Hr.
  - right. exists k, b. split; auto. rewrite Hr. simpl fst.
    assert (E : (Z.of_nat k =? -1) = false) by (apply Z.eqb_neq; lia).
    rewrite E. simpl negb. cbv iota.
    rewrite js_index_of_nat. destruct Hc as (Hk & _). rewrite Hk.
    now rewrite seat_driverId, Nat2Z.id.
Qed.

(* ------------------------------------------------------------------------- *)
(** ** The pass over the candidates *)

Section Pass.
Variable rnd : nat -> ID.
Variable eventId : ID.
Variable rules : list Eligibility.t.

Lemma processPlayer_total (st : LoopState) (player : Player.t) :
  exists st', processPlayer rnd eventId rules st player = Some st'.
Proof.
  destruct (processPlayer_cases rnd eventId rules st player)
    as [[_ E] | (k & b & _ & E)]; rewrite E; eauto.
Qed.

Lemma processPlayers_total (ps : list Player.t) :
  forall st, exists st', processPlayers rnd eventId rules st ps = Some st'.
Proof.
  induction ps as [|p ps IH]; intros st; simpl; eauto.
  destruct (processPlayer_total st p) as [st1 E]. rewrite E. apply IH.
Qed.

Lemma processPlayers_app (ps qs : list Player.t) :
  forall st,
    processPlayers rnd eventId rules st (ps ++ qs)
    = match processPlayers rnd eventId rules st ps with
      | Some st' => processPlayers rnd eventId rules st' qs
      | None => None
      end.
Proof.
  induction ps as [|p ps IH]; intros st; simpl; auto.
  destruct (processPlayer rnd eventId rules st p); auto.
Qed.

(** Loop invariants: [I done st] relates the state to the candidates
    processed so far. *)
Lemma processPlayers_invariant (I : list Player.t -> LoopState -> Prop) :
  (forall done st p st',
      I done st -> processPlayer rnd eventId rules st p = Some st' ->
      I (done ++ [p]) st') ->
  forall ps done st st',
    I done st -> processPlayers rnd eventId rules st ps = Some st' ->
    I (done ++ ps) st'.
Proof.
  intros Hstep. induction ps as [|p ps IH]; intros done st st' HI Hrun; simpl in Hrun.
  - injection Hrun as <-. now rewrite app_nil_r.
  - destruct (processPlayer rnd eventId rules st p) as [st1|] eqn:E; [|discriminate].
    replace (done ++ p :: ps) with ((done ++ [p]) ++ ps)
      by (now rewrite <- app_assoc).
    eapply IH; eauto.
Qed.

Lemma runPass_total (active : list EventDriver.t) (going : list Player.t) :
  exists st, runPass rnd eventId rules active going = Some st.
Proof. apply processPlayers_total. Qed.

Lemma rows_track_step (done : list Player.t) (st : LoopState) (p : Player.t)
      (st' : LoopState) :
  rows_track eventId done st -> processPlayer rnd eventId rules st p = Some st' ->
  rows_track eventId (done ++ [p]) st'.
Proof.
  intros (Hm & Hall & Hlen) E.
  assert (exists did,
             newAssignments st'
             = newAssignments st ++
                 [Assignment.mk (rnd (idsDrawn st)) eventId did (Player.id p) dir_both])
    as [did Hrows].
  { destruct (processPlayer_cases rnd eventId rules st p)
      as [[_ E'] | (k & b & _ & E')]; rewrite E' in E; injection E as <-;
      eexists; reflexivity. }
  unfold rows_track. rewrite Hrows. split; [|split].
  - now rewrite !map_app, Hm.
  - intros a Ha. apply in_app_or in Ha. destruct Ha as [Ha | [<- | []]].
    + now apply Hall.
    + split; reflexivity.
  - rewrite !length_app, Hlen. reflexivity.
Qed.

Lemma runPass_rows (active : list EventDriver.t) (going : list Player.t)
      (st : LoopState) :
  runPass rnd eventId rules active going = Some st ->
  rows_track eventId (sortedPlayers going) st.
Proof.
  intros E.
  apply (processPlayers_invariant (rows_track eventId) rows_track_step
           (sortedPlayers going) [] _ st) in E; auto.
  split; [reflexivity|]. split; [|reflexivity]. intros a [].
Qed.
End Pass.

(* ------------------------------------------------------------------------- *)
(** ** [generateCarpool] in terms of the pass *)

Lemma activeDrivers_none (led : list EventDriver.t) :
  (forall d, In d led -> EventDriver.isDriving d = false) -> activeDrivers led = [].
Proof. apply filter_none. Qed.

Lemma generateCarpool_no_drivers (rnd : nat -> ID) (eventId : ID)
      (allPlayers : list Player.t) (rules : list Eligibility.t)
      (att : list EventAttendance.t) (led : list EventDriver.t) (w : World) :
  activeDrivers led = [] ->
  generateCarpool rnd eventId allPlayers rules att led w
  = Some (alert noDriversMessage w).
Proof. unfold generateCarpool. now intros ->. Qed.

Lemma filter_event_rows (eventId : ID) (old rows : list Assignment.t) :
  (forall a, In a rows -> Assignment.eventId a = eventId) ->
  filter (fun a => (Assignment.eventId a =? eventId)%string)
         (filter (fun a => negb (Assignment.eventId a =? eventId)%string) old ++ rows)
  = rows.
Proof.
  intros H. rewrite filter_app, filter_filter_neg. simpl.
  apply filter_all. intros a Ha. apply String.eqb_eq. now apply H.
Qed.

Lemma generateCarpool_run (rnd : nat -> ID) (eventId : ID)
      (allPlayers : list Player.t) (rules : list Eligibility.t)
      (att : list EventAttendance.t) (led : list EventDriver.t) (w : World) :
  activeDrivers led <> [] ->
  exists st,
    runPass rnd eventId rules (activeDrivers led) (goingPlayers allPlayers att) = Some st /\
    generateCarpool rnd eventId allPlayers rules att led w
    = Some (mkWorld
              (filter (fun a => negb (Assignment.eventId a =? eventId)%string) (stored w)
                 ++ newAssignments st)
              (newAssignments st) TabCarpool
              (alerts w ++ [generatedMessage (List.length (unassignedIds st))])).
Proof.
  intros Hne.
  destruct (runPass_total rnd eventId rules (activeDrivers led)
                          (goingPlayers allPlayers att)) as [st E].
  exists st. split; auto. unfold generateCarpool. rewrite E.
  destruct (activeDrivers led) as [|d l] eqn:Ha; [congruence|]. simpl Nat.eqb. cbv iota.
  unfold alert, refreshData. simpl. repeat f_equal.
  apply filter_event_rows. intros a Hin.
  rewrite <- Ha in E. apply runPass_rows in E. destruct E as (_ & Hall & _).
  now apply Hall.
Qed.

Lemma message_differs (n : nat) : noDriversMessage <> generatedMessage n.
Proof. unfold noDriversMessage, generatedMessage. simpl. discriminate. Qed.

(** C4. When no availability record is marked as driving, the run stops at
    the guard: the stored assignments, the rows on display and the tab stay
    as they were, and the user is told through the alert
    'No drivers marked for this event!', which no successful run shows. *)
Theorem no_drivers_reported (rnd : nat -> ID) (eventId : ID)
        (allPlayers : list Player.t) (rules : list Eligibility.t)
        (att : list EventAttendance.t) (led : list EventDriver.t) (w : World) :
  (forall d, In d led -> EventDriver.isDriving d = false) ->
  exists w',
    generateCarpool rnd eventId allPlayers rules att led w = Some w' /\
    stored w' = stored w /\
    shown w' = shown w /\
    currentTab w' = currentTab w /\
    alerts w' = alerts w ++ [noDriversMessage] /\
    (forall n, noDriversMessage <> generatedMessage n).
Proof.
  intros H. exists (alert noDriversMessage w). split.
  - apply generateCarpool_no_drivers. now apply activeDrivers_none.
  - repeat split. apply message_differs.
Qed.

Lemma no_drivers_reported_witness :
  exists w',
    generateCarpool Sample.ids Sample.ev [Sample.ann; Sample.bob] []
                    [Sample.going Sample.ann; Sample.going Sample.bob]
                    [Sample.eli_stays] Sample.full = Some w' /\
    stored w' = stored Sample.full /\
    shown w' = shown Sample.full /\
    currentTab w' = currentTab Sample.full /\
    alerts w' = alerts Sample.full ++ [noDriversMessage] /\
    (forall n, noDriversMessage <> generatedMessage n).
Proof.
  apply (no_drivers_reported Sample.ids Sample.ev [Sample.ann; Sample.bob] []
           [Sample.going Sample.ann; Sample.going Sample.bob]
           [Sample.eli_stays] Sample.full).
  intros d [<- | []]. reflexivity.
Defined.

(* ------------------------------------------------------------------------- *)
(** ** Two runs on the same input *)

Section TwoRuns.
Variables rnd1 rnd2 : nat -> ID.
Variable eventId : ID.
Variable rules : list Eligibility.t.

Lemma processPlayer_sim (st1 st2 : LoopState) (p : Player.t) :
  same_but_ids st1 st2 ->
  exists st1' st2',
    processPlayer rnd1 eventId rules st1 p = Some st1' /\
    processPlayer rnd2 eventId rules st2 p = Some st2' /\
    same_but_ids st1' st2'.
Proof.
  intros (Hb & Hu & Hn).
  destruct (processPlayer_total rnd1 eventId rules st1 p) as [st1' E1].
  destruct (processPlayer_total rnd2 eventId rules st2 p) as [st2' E2].
  exists st1', st2'. split; [exact E1|]. split; [exact E2|].
  unfold processPlayer in E1, E2. rewrite Hb in E1.
  destruct (negb (fst (findBest rules (buckets st2) p) =? -1)).
  - destruct (js_index (buckets st2) (fst (findBest rules (buckets st2) p)));
      [|discriminate].
    injection E1 as <-. injection E2 as <-. unfold same_but_ids. simpl.
    rewrite !map_app, Hn. auto.
  - injection E1 as <-. injection E2 as <-. unfold same_but_ids. simpl.
    rewrite !map_app, Hn, Hu. auto.
Qed.

Lemma processPlayers_sim (ps : list Player.t) :
  forall st1 st2,
    same_but_ids st1 st2 ->
    exists st1' st2',
      processPlayers rnd1 eventId rules st1 ps = Some st1' /\
      processPlayers rnd2 eventId rules st2 ps = Some st2' /\
      same_but_ids st1' st2'.
Proof.
  induction ps as [|p ps IH]; intros st1 st2 H; simpl.
  - exists st1, st2. auto.
  - destruct (processPlayer_sim st1 st2 p H) as (a & b & E1 & E2 & H').
    rewrite E1, E2. now apply IH.
Qed.

Lemma runPass_sim (active : list EventDriver.t) (going : list Player.t) :
  exists st1 st2,
    runPass rnd1 eventId rules active going = Some st1 /\
    runPass rnd2 eventId rules active going = Some st2 /\
    same_but_ids st1 st2.
Proof. apply processPlayers_sim. repeat split. Qed.
End TwoRuns.

(** The ids of the rows are the successive draws of [generateId]. *)
Lemma processPlayers_ids (rnd : nat -> ID) (eventId : ID) (rules : list Eligibility.t)
      (ps : list Player.t) :
  forall st st',
    processPlayers rnd eventId rules st ps = Some st' ->
    map Assignment.id (newAssignments st')
    = map Assignment.id (newAssignments st)
        ++ map rnd (seq (idsDrawn st) (List.length ps)).
Proof.
  induction ps as [|p ps IH]; intros st st' E; simpl in E.
  - injection E as <-. simpl. now rewrite app_nil_r.
  - destruct (processPlayer rnd eventId rules st p) as [st1|] eqn:E1; [|discriminate].
    rewrite (IH _ _ E). simpl.
    destruct (processPlayer_cases rnd eventId rules st p)
      as [[_ E'] | (k & b & _ & E')]; rewrite E' in E1; injection E1 as <-; simpl;
      now rewrite map_app, <- app_assoc.
Qed.

Lemma sortedPlayers_length (going : list Player.t) :
  List.length (sortedPlayers going) = List.length going.
Proof.
  rewrite sortedPlayers_eq, length_app.
  induction going as [|x l IH]; simpl; auto.
  destruct (Player.needsChildSeat x); simpl; lia.
Qed.

Lemma generateCarpool_ids (rnd : nat -> ID) (eventId : ID)
      (allPlayers : list Player.t) (rules : list Eligibility.t)
      (att : list EventAttendance.t) (led : list EventDriver.t) (w : World) :
  activeDrivers led <> [] ->
  exists w',
    generateCarpool rnd eventId allPlayers rules att led w = Some w' /\
    map Assignment.id (shown w')
    = map rnd (seq 0 (List.length (goingPlayers allPlayers att))).
Proof.
  intros Hne.
  destruct (generateCarpool_run rnd eventId allPlayers rules att led w Hne)
    as (st & R & G).
  eexists. split; [exact G|]. simpl.
  unfold runPass in R. apply processPlayers_ids in R. simpl in R.
  now rewrite sortedPlayers_length in R.
Qed.

(** C2, as stated, fails: two runs on the same one-player input whose id
    draws differ store different rows. *)
Lemma regenerate_identical_counterexample :
  generateCarpool Sample.ids Sample.ev [Sample.ann] [] [Sample.going Sample.ann]
                  [Sample.dana_drives] Sample.empty
  = Some (mkWorld [Sample.row "id0" "d1" "p1"] [Sample.row "id0" "d1" "p1"]
                  TabCarpool ["Carpool generated. 0 players unassigned."]) /\
  generateCarpool Sample.ids' Sample.ev [Sample.ann] [] [Sample.going Sample.ann]
                  [Sample.dana_drives] Sample.empty
  = Some (mkWorld [Sample.row "xd0" "d1" "p1"] [Sample.row "xd0" "d1" "p1"]
                  TabCarpool ["Carpool generated. 0 players unassigned."]) /\
  generateCarpool Sample.ids Sample.ev [Sample.ann] [] [Sample.going Sample.ann]
                  [Sample.dana_drives] Sample.empty
  <> generateCarpool Sample.ids' Sample.ev [Sample.ann] [] [Sample.going Sample.ann]
                     [Sample.dana_drives] Sample.empty.
Proof.
  split; [reflexivity|]. split; [reflexivity|]. vm_compute. discriminate.
Qed.

(** C2, amended. Two runs on the same input succeed or stop together and
    agree on everything but the [id] field of the rows: the same rows in the
    same order up to [id], the same tab, the same alerts (hence the same
    number of unassigned players). The [id] fields are the successive
    draws of [generateId] in each run ([generateCarpool_ids]). *)
Theorem regenerate_same_up_to_ids (rnd1 rnd2 : nat -> ID) (eventId : ID)
        (allPlayers : list Player.t) (rules : list Eligibility.t)
        (att : list EventAttendance.t) (led : list EventDriver.t) (w : World) :
  exists w1 w2,
    generateCarpool rnd1 eventId allPlayers rules att led w = Some w1 /\
    generateCarpool rnd2 eventId allPlayers rules att led w = Some w2 /\
    map forget_id (stored w1) = map forget_id (stored w2) /\
    map forget_id (shown w1) = map forget_id (shown w2) /\
    currentTab w1 = currentTab w2 /\
    alerts w1 = alerts w2.
Proof.
  destruct (activeDrivers led) as [|d l] eqn:Ha.
  - exists (alert noDriversMessage w), (alert noDriversMessage w).
    rewrite !generateCarpool_no_drivers by assumption.
    repeat split; auto. all: congruence.
  - assert (Hne : activeDrivers led <> []) by congruence.
    destruct (generateCarpool_run rnd1 eventId allPlayers rules att led w Hne)
      as (st1 & R1 & G1).
    destruct (generateCarpool_run rnd2 eventId allPlayers rules att led w Hne)
      as (st2 & R2 & G2).
    destruct (runPass_sim rnd1 rnd2 eventId rules (activeDrivers led)
                          (goingPlayers allPlayers att))
      as (s1 & s2 & R1' & R2' & (Hb & Hu & Hn)).
    rewrite R1 in R1'. rewrite R2 in R2'. injection R1' as <-. injection R2' as <-.
    eexists. eexists. split; [exact G1|]. split; [exact G2|]. simpl.
    split; [now rewrite !map_app, Hn|]. split; [exact Hn|]. split; [reflexivity|].
    now rewrite Hu.
Qed.

(* ------------------------------------------------------------------------- *)
(** ** Hard eligibility *)

Lemma feasible_allowed (rules : list Eligibility.t) (p : Player.t) (b : Bucket.t) :
  feasible rules p b = true -> isAllowed rules (Bucket.driverId b) (Player.id p) = true.
Proof. unfold feasible. intros H. now apply andb_true_iff in H. Qed.

Lemma rows_allowed_step (rnd : nat -> ID) (eventId : ID) (rules : list Eligibility.t)
      (done : list Player.t) (st : LoopState) (p : Player.t) (st' : LoopState) :
  (forall a, In a (newAssignments st) -> Assignment.driverId a <> unassigned ->
             isAllowed rules (Assignment.driverId a) (Assignment.playerId a) = true) ->
  processPlayer rnd eventId rules st p = Some st' ->
  (forall a, In a (newAssignments st') -> Assignment.driverId a <> unassigned ->
             isAllowed rules (Assignment.driverId a) (Assignment.playerId a) = true).
Proof.
  intros Hold E a Ha Hreal.
  destruct (processPlayer_cases rnd eventId rules st p)
    as [[_ E'] | (k & b & (_ & Hb & _) & E')]; rewrite E' in E; injection E as <-;
    simpl in Ha; apply in_app_or in Ha; destruct Ha as [Ha | [<- | []]]; auto.
  simpl. now apply feasible_allowed.
Qed.

Lemma no_rule_default (rules : list Eligibility.t) (did pid : ID) :
  (forall e, In e rules ->
             ~ (Eligibility.driverId e = did /\ Eligibility.playerId e = pid)) ->
  isAllowed rules did pid = true /\ getPreference rules did pid = none.
Proof.
  intros H.
  assert (F : find (rule_matches did pid) rules = None).
  { destruct (find (rule_matches did pid) rules) as [r|] eqn:E; auto.
    apply find_some in E. destruct E as [Hin Hm].
    apply rule_matches_iff in Hm. now apply H in Hin. }
  unfold isAllowed, getPreference. now rewrite F.
Qed.

(** C7, as stated, fails when the rule list holds two rules for one pair:
    with an allowing rule for (d1, p2) ahead of a forbidding rule for the
    same pair, the run seats p2 with d1 although a rule with
    [allowed = false] exists for that pair. *)
Lemma denied_pair_counterexample :
  In Sample.deny_d1_p2 [Sample.allow_d1_p2; Sample.deny_d1_p2] /\
  Eligibility.allowed Sample.deny_d1_p2 = false /\
  exists st,
    runPass Sample.ids Sample.ev [Sample.allow_d1_p2; Sample.deny_d1_p2]
            (activeDrivers [Sample.dana_drives])
            (goingPlayers [Sample.bob] [Sample.going Sample.bob]) = Some st /\
    In (Assignment.mk "id0" Sample.ev
                      (Eligibility.driverId Sample.deny_d1_p2)
                      (Eligibility.playerId Sample.deny_d1_p2) dir_both)
       (newAssignments st).
Proof.
  split; [right; now left|]. split; [reflexivity|].
  eexists. split; [vm_compute; reflexivity|]. now left.
Qed.

(** C7, amended. In the rows of a run, a row with a real driver is always a
    pair [isAllowed] accepts; so when the earliest rule of the list for a
    pair (driverId, playerId) has [allowed = false], no row pairs that
    driver with that player (the player rides with another driver or is
    unassigned). When the list has no rule for a pair, the lookups answer
    [allowed = true] and preference 'none'. *)
Theorem earliest_denial_respected (rnd : nat -> ID) (eventId : ID)
        (rules : list Eligibility.t) (active : list EventDriver.t)
        (going : list Player.t) :
  exists st,
    runPass rnd eventId rules active going = Some st /\
    (forall a, In a (newAssignments st) -> Assignment.driverId a <> unassigned ->
               isAllowed rules (Assignment.driverId a) (Assignment.playerId a) = true) /\
    (forall pre r post,
        rules = pre ++ r :: post ->
        (forall e, In e pre ->
                   ~ (Eligibility.driverId e = Eligibility.driverId r /\
                      Eligibility.playerId e = Eligibility.playerId r)) ->
        Eligibility.allowed r = false ->
        Eligibility.driverId r <> unassigned ->
        forall a, In a (newAssignments st) ->
                  ~ (Assignment.driverId a = Eligibility.driverId r /\
                     Assignment.playerId a = Eligibility.playerId r)) /\
    (forall did pid,
        (forall e, In e rules ->
                   ~ (Eligibility.driverId e = did /\ Eligibility.playerId e = pid)) ->
        isAllowed rules did pid = true /\ getPreference rules did pid = none).
Proof.
  destruct (runPass_total rnd eventId rules active going) as [st E].
  exists st. split; [exact E|].
  assert (Hrows : forall a, In a (newAssignments st) ->
                            Assignment.driverId a <> unassigned ->
                            isAllowed rules (Assignment.driverId a)
                                      (Assignment.playerId a) = true).
  { unfold runPass in E.
    refine (processPlayers_invariant rnd eventId rules
              (fun _ s => forall a, In a (newAssignments s) ->
                                    Assignment.driverId a <> unassigned ->
                                    isAllowed rules (Assignment.driverId a)
                                              (Assignment.playerId a) = true)
              (rows_allowed_step rnd eventId rules) _ [] _ st _ E).
    intros a []. }
  split; [exact Hrows|]. split.
  - intros pre r post -> Hpre Hdeny Hreal a Ha [Hd Hp].
    destruct (first_match_decides pre post r Hpre) as [Hal _].
    specialize (Hrows a Ha). rewrite Hd, Hp in Hrows.
    rewrite Hal in Hrows. specialize (Hrows Hreal). congruence.
  - apply no_rule_default.
Qed.

Lemma earliest_denial_respected_witness :
  exists st,
    runPass Sample.ids Sample.ev [Sample.deny_d1_p2; Sample.allow_d1_p2]
            (activeDrivers [Sample.dana_drives])
            (goingPlayers [Sample.bob] [Sample.going Sample.bob]) = Some st /\
    forall a, In a (newAssignments st) ->
              ~ (Assignment.driverId a = "d1" /\ Assignment.playerId a = "p2").
Proof.
  destruct (earliest_denial_respected Sample.ids Sample.ev
              [Sample.deny_d1_p2; Sample.allow_d1_p2]
              (activeDrivers [Sample.dana_drives])
              (goingPlayers [Sample.bob] [Sample.going Sample.bob]))
    as (st & E & _ & H & _).
  exists st. split; [exact E|].
  apply (H [] Sample.deny_d1_p2 [Sample.allow_d1_p2]).
  - reflexivity.
  - intros e [].
  - reflexivity.
  - discriminate.
Defined.

(* ------------------------------------------------------------------------- *)
(** ** Capacity *)

Lemma getDriverLoad_snoc (l : list Assignment.t) (a : Assignment.t) (did : ID) :
  getDriverLoad (l ++ [a]) did
  = (getDriverLoad l did + if (Assignment.driverId a =? did)%string then 1 else 0)%nat.
Proof.
  unfold getDriverLoad. rewrite filter_app, length_app. simpl.
  now destruct (Assignment.driverId a =? did)%string.
Qed.

Lemma combine_snoc {A B : Type} (l1 : list A) (l2 : list B) (x : A) (y : B) :
  List.length l1 = List.length l2 ->
  combine (l1 ++ [x]) (l2 ++ [y]) = combine l1 l2 ++ [(x, y)].
Proof.
  revert l2. induction l1 as [|a l1 IH]; intros [|b l2] H; simpl in *;
    try discriminate; auto.
  f_equal. apply IH. congruence.
Qed.


Lemma NoDup_map_nth {A B : Type} (f : A -> B) (l : list A) (i j : nat) (x y : A) :
  NoDup (map f l) -> nth_error l i = Some x -> nth_error l j = Some y ->
  f x = f y -> i = j.
Proof.
  intros Hnd Hi Hj Hf.
  apply (proj1 (NoDup_nth_error (map f l)) Hnd).
  - rewrite length_map. apply nth_error_Some. congruence.
  - rewrite !nth_error_map, Hi, Hj. simpl. now rewrite Hf.
Qed.

Lemma seat_remainingSeats (p : Player.t) (b : Bucket.t) :
  Bucket.remainingSeats (seat p b) = js_dec (Bucket.remainingSeats b).
Proof. unfold seat. now destruct (Player.needsChildSeat p). Qed.

Lemma seat_remainingChildSeats (p : Player.t) (b : Bucket.t) :
  Bucket.remainingChildSeats (seat p b)
  = if Player.needsChildSeat p then js_dec (Bucket.remainingChildSeats b)
    else Bucket.remainingChildSeats b.
Proof. unfold seat. now destruct (Player.needsChildSeat p). Qed.


(* ------------------------------------------------------------------------- *)
(** ** The manual override *)

Lemma handleDrop_dragging (rnd : nat -> ID) (props : BoardProps) (pid target : ID)
      (w : World) :
  pid <> "" ->
  handleDrop rnd props (Some pid) target w
  = (mkWorld
       (filter (fun a => negb (Assignment.eventId a =? boardEventId props)%string)
               (stored w)
          ++ filter (fun a => negb (Assignment.playerId a =? pid)%string) (shown w)
          ++ [Assignment.mk (rnd O) (boardEventId props) target pid dir_both])
       (filter (fun a => (Assignment.eventId a =? boardEventId props)%string)
               (filter (fun a => negb (Assignment.playerId a =? pid)%string) (shown w))
          ++ [Assignment.mk (rnd O) (boardEventId props) target pid dir_both])
       (currentTab w) (alerts w),
     None).
Proof.
  intros Hpid. unfold handleDrop, falsy.
  apply String.eqb_neq in Hpid. rewrite Hpid.
  unfold refreshData. simpl. f_equal. f_equal.
  rewrite !filter_app, filter_filter_neg. simpl.
  now rewrite String.eqb_refl.
Qed.

Lemma handleDrop_idle (rnd : nat -> ID) (props : BoardProps)
      (dragged : option ID) (target : ID) (w : World) :
  falsy dragged = true -> handleDrop rnd props dragged target w = (w, dragged).
Proof. unfold handleDrop. now intros ->. Qed.

(** C8, as stated, fails for the empty player id: the guard
    [if (!draggedPlayerId) return] takes the empty string for "nothing is
    being dragged", so the drop writes nothing and no row for the player
    appears. *)
Lemma override_counterexample :
  handleDrop Sample.ids Sample.board (Some "") "d1" Sample.full
  = (Sample.full, Some "") /\
  ~ (exists a,
        In a (stored (fst (handleDrop Sample.ids Sample.board (Some "") "d1"
                                      Sample.full))) /\
        Assignment.playerId a = "" /\ Assignment.driverId a = "d1").
Proof.
  split; [reflexivity|].
  intros (a & Ha & Hp & _). vm_compute in Ha.
  destruct Ha as [<- | [<- | [<- | [<- | []]]]]; discriminate Hp.
Qed.

(** C8, amended. With a non-empty player id being dragged, the override writes,
    for any board and any capacity or eligibility data: the other events'
    rows, then the displayed rows minus every row of the player, then one
    new row with [driverId = targetDriverId] (the target may be
    'unassigned') and direction 'both'. The rows of the other players are
    kept as they are and in order, the player has exactly one row, and the
    load of the target grows by one whatever its seat count. *)
Theorem override_replaces_one_row (rnd : nat -> ID) (props : BoardProps)
        (pid target : ID) (w : World) :
  pid <> "" ->
  exists w' kept new,
    handleDrop rnd props (Some pid) target w = (w', None) /\
    kept = filter (fun a => negb (Assignment.playerId a =? pid)%string) (shown w) /\
    new = Assignment.mk (rnd O) (boardEventId props) target pid dir_both /\
    stored w'
    = filter (fun a => negb (Assignment.eventId a =? boardEventId props)%string)
             (stored w) ++ kept ++ [new] /\
    filter (fun a => (Assignment.playerId a =? pid)%string) (kept ++ [new]) = [new] /\
    filter (fun a => negb (Assignment.playerId a =? pid)%string) (kept ++ [new])
    = filter (fun a => negb (Assignment.playerId a =? pid)%string) (shown w) /\
    (forall a, In a (shown w) -> Assignment.playerId a <> pid -> In a (stored w')) /\
    (forall a, In a (stored w) -> Assignment.eventId a <> boardEventId props ->
               In a (stored w')) /\
    getDriverLoad (kept ++ [new]) target = S (getDriverLoad kept target) /\
    ((forall a, In a (shown w) -> Assignment.eventId a = boardEventId props) ->
     shown w' = kept ++ [new]).
Proof.
  intros Hpid. eexists. eexists. eexists.
  split; [apply handleDrop_dragging; exact Hpid|].
  split; [reflexivity|]. split; [reflexivity|]. simpl.
  split; [reflexivity|].
  split.
  { rewrite filter_app, filter_filter_neg. simpl. now rewrite String.eqb_refl. }
  split.
  { rewrite filter_app, filter_idem. simpl. rewrite String.eqb_refl. simpl.
    now rewrite app_nil_r. }
  split.
  { intros a Ha Hne. apply in_or_app. right. apply in_or_app. left.
    apply filter_In. split; auto. apply negb_true_iff. now apply String.eqb_neq. }
  split.
  { intros a Ha Hne. apply in_or_app. left.
    apply filter_In. split; auto. apply negb_true_iff. now apply String.eqb_neq. }
  split.
  { rewrite getDriverLoad_snoc. simpl. rewrite String.eqb_refl. lia. }
  intros Hev. f_equal. apply filter_all. intros a Ha.
  apply filter_In in Ha. destruct Ha as [Ha _]. apply String.eqb_eq. now apply Hev.
Qed.

(** Cy is dropped on Dana, whose two seats are both taken: the row is
    written and Dana's load becomes 3. *)
Lemma override_replaces_one_row_witness :
  fst (handleDrop Sample.ids Sample.board (Some "p3") "d1" Sample.full)
  = mkWorld [Assignment.mk "z" "ev0" "d1" "p3" dir_both;
             Sample.row "a" "d1" "p1"; Sample.row "b" "d1" "p2";
             Sample.row "id0" "d1" "p3"]
            [Sample.row "a" "d1" "p1"; Sample.row "b" "d1" "p2";
             Sample.row "id0" "d1" "p3"]
            TabCarpool []
  /\ getDriverLoad [Sample.row "a" "d1" "p1"; Sample.row "b" "d1" "p2";
                    Sample.row "id0" "d1" "p3"] "d1" = 3%nat
  /\ EventDriver.availableSeatsTotal Sample.dana_drives = JNum 2.
Proof.
  assert (Hp : "p3" <> "") by discriminate.
  destruct (override_replaces_one_row Sample.ids Sample.board "p3" "d1" Sample.full Hp)
    as (w' & kept & new & E & Hk & Hn & Hst & _ & _ & _ & _ & Hload & Hsh).
  rewrite E. simpl fst. split; [|split; reflexivity].
  destruct w' as [st sh tb al]. simpl in Hst, Hsh.
  rewrite Hst, Hsh, Hk, Hn.
  - vm_compute in E. injection E as _ _ <- <-. reflexivity.
  - intros a [<- | [<- | [<- | []]]]; reflexivity.
Defined.

(* ------------------------------------------------------------------------- *)
(** ** One ride per player and event *)

Lemma NoDup_map_filter {A B : Type} (f : A -> B) (g : A -> bool) (l : list A) :
  NoDup (map f l) -> NoDup (map f (filter g l)).
Proof.
  induction l as [|x l IH]; simpl; intros H; auto.
  apply NoDup_cons_iff in H. destruct H as [Hx Hl].
  destruct (g x); simpl; auto. constructor; auto.
  intros Hin. apply Hx. apply in_map_iff in Hin. destruct Hin as (y & Hy & Hin).
  apply in_map_iff. exists y. split; auto. now apply filter_In in Hin.
Qed.

Lemma partition_perm {A : Type} (keep : A -> bool) (xs : list A) :
  Permutation (filter keep xs ++ filter (fun x => negb (keep x)) xs) xs.
Proof.
  induction xs as [|x xs IH]; simpl; auto.
  destruct (keep x); simpl.
  - now constructor.
  - symmetry. etransitivity; [apply perm_skip; symmetry; exact IH|].
    apply Permutation_middle.
Qed.

Lemma sortedPlayers_ids (allPlayers : list Player.t) (att : list EventAttendance.t) :
  NoDup (map Player.id allPlayers) ->
  NoDup (map Player.id (sortedPlayers (goingPlayers allPlayers att))).
Proof.
  intros H. rewrite sortedPlayers_eq.
  eapply Permutation_NoDup.
  - apply Permutation_map. symmetry. apply partition_perm.
  - unfold goingPlayers. now apply NoDup_map_filter.
Qed.

Lemma singleRide_filter (g : Assignment.t -> bool) (l : list Assignment.t) :
  singleRide l -> singleRide (filter g l).
Proof. apply NoDup_map_filter. Qed.

Lemma singleRide_rows (eventId : ID) (rows : list Assignment.t) :
  (forall a, In a rows -> Assignment.eventId a = eventId) ->
  NoDup (map Assignment.playerId rows) -> singleRide rows.
Proof.
  unfold singleRide. induction rows as [|a rows IH]; simpl; intros Hev Hnd.
  - constructor.
  - apply NoDup_cons_iff in Hnd. destruct Hnd as [Ha Hnd]. constructor.
    + intros Hin. apply Ha. apply in_map_iff in Hin. destruct Hin as (b & Hb & Hin).
      apply in_map_iff. exists b. split; auto. congruence.
    + apply IH; auto.
Qed.

Lemma singleRide_override (new : Assignment.t) (l : list Assignment.t) :
  singleRide l ->
  singleRide (filter (fun a => negb (Assignment.playerId a
                                     =? Assignment.playerId new)%string) l ++ [new]).
Proof.
  intros H. unfold singleRide. rewrite map_app. apply NoDup_app.
  - now apply NoDup_map_filter.
  - simpl. constructor; [intros [] | constructor].
  - intros x Hx [<- | []]. apply in_map_iff in Hx. destruct Hx as (b & Hb & Hin).
    apply filter_In in Hin. destruct Hin as [_ Hne].
    apply negb_true_iff, String.eqb_neq in Hne. congruence.
Qed.

Lemma singleRide_replace (eventId : ID) (old rows : list Assignment.t) :
  singleRide old -> singleRide rows ->
  (forall a, In a rows -> Assignment.eventId a = eventId) ->
  singleRide (filter (fun a => negb (Assignment.eventId a =? eventId)%string) old ++ rows).
Proof.
  intros Hold Hrows Hev. unfold singleRide. rewrite map_app. apply NoDup_app.
  - now apply NoDup_map_filter.
  - exact Hrows.
  - intros x Hx Hy.
    apply in_map_iff in Hx. destruct Hx as (a & Ha & Hina).
    apply in_map_iff in Hy. destruct Hy as (b & Hb & Hinb).
    apply filter_In in Hina. destruct Hina as [_ Hne].
    apply negb_true_iff, String.eqb_neq in Hne.
    apply Hev in Hinb. apply Hne. congruence.
Qed.

Lemma runPass_singleRide (rnd : nat -> ID) (eventId : ID) (rules : list Eligibility.t)
      (active : list EventDriver.t) (allPlayers : list Player.t)
      (att : list EventAttendance.t) (st : LoopState) :
  NoDup (map Player.id allPlayers) ->
  runPass rnd eventId rules active (goingPlayers allPlayers att) = Some st ->
  singleRide (newAssignments st).
Proof.
  intros Hnd E. apply runPass_rows in E. destruct E as (Hm & Hall & _).
  apply (singleRide_rows eventId).
  - intros a Ha. now apply Hall.
  - rewrite Hm. now apply sortedPlayers_ids.
Qed.

(** C9. With distinct player ids, the rows of a generator run hold at most
    one row per (eventId, playerId), and so do the rows on display after
    [generateCarpool]; an override applied to rows that hold at most one row
    per (eventId, playerId) leaves rows that do. The same holds for the
    stored table, the displayed rows being this event's rows. *)
Theorem single_ride_maintained (rnd : nat -> ID) (eventId : ID)
        (allPlayers : list Player.t) (rules : list Eligibility.t)
        (att : list EventAttendance.t) (led : list EventDriver.t)
        (props : BoardProps) (dragged : option ID) (target : ID) (w : World) :
  NoDup (map Player.id allPlayers) ->
  singleRide (shown w) ->
  (exists st,
      runPass rnd eventId rules (activeDrivers led) (goingPlayers allPlayers att)
      = Some st /\
      singleRide (newAssignments st))
  /\
  (exists wg,
      generateCarpool rnd eventId allPlayers rules att led w = Some wg /\
      singleRide (shown wg) /\
      (singleRide (stored w) -> singleRide (stored wg)))
  /\
  singleRide (shown (fst (handleDrop rnd props dragged target w)))
  /\
  (singleRide (stored w) ->
   (forall a, In a (shown w) -> Assignment.eventId a = boardEventId props) ->
   singleRide (stored (fst (handleDrop rnd props dragged target w)))).
Proof.
  intros Hids Hshown. split; [|split; [|split]].
  - destruct (runPass_total rnd eventId rules (activeDrivers led)
                            (goingPlayers allPlayers att)) as [st E].
    exists st. split; [exact E|]. eapply runPass_singleRide; eauto.
  - destruct (activeDrivers led) as [|d l] eqn:Ha.
    + exists (alert noDriversMessage w).
      rewrite generateCarpool_no_drivers by assumption. simpl. auto.
    + assert (Hne : activeDrivers led <> []) by congruence.
      destruct (generateCarpool_run rnd eventId allPlayers rules att led w Hne)
        as (st & R & G).
      eexists. split; [exact G|]. simpl.
      pose proof (runPass_singleRide _ _ _ _ _ _ _ Hids R) as Hst.
      split; [exact Hst|]. intros Hdb.
      apply singleRide_replace; auto.
      intros a Hin. apply runPass_rows in R. destruct R as (_ & Hall & _).
      now apply Hall.
  - destruct (falsy dragged) eqn:Hf.
    + now rewrite handleDrop_idle.
    + destruct dragged as [pid|]; [|discriminate]. simpl in Hf.
      apply String.eqb_neq in Hf. rewrite (handleDrop_dragging _ _ _ _ _ Hf). simpl.
      pose proof (singleRide_override
                    (Assignment.mk (rnd O) (boardEventId props) target pid dir_both)
                    (shown w) Hshown) as H. simpl in H.
      apply (singleRide_filter
               (fun a => (Assignment.eventId a =? boardEventId props)%string)) in H.
      rewrite filter_app in H. simpl in H. now rewrite String.eqb_refl in H.
  - intros Hdb Hev. destruct (falsy dragged) eqn:Hf.
    + now rewrite handleDrop_idle.
    + destruct dragged as [pid|]; [|discriminate]. simpl in Hf.
      apply String.eqb_neq in Hf. rewrite (handleDrop_dragging _ _ _ _ _ Hf). simpl.
      apply singleRide_replace; auto.
      * exact (singleRide_override
                 (Assignment.mk (rnd O) (boardEventId props) target pid dir_both)
                 (shown w) Hshown).
      * intros a Ha. apply in_app_or in Ha. destruct Ha as [Ha | [<- | []]]; auto.
        apply filter_In in Ha. now apply Hev.
Qed.

Lemma single_ride_maintained_witness :
  (exists st,
      runPass Sample.ids Sample.ev [] (activeDrivers [Sample.dana_drives])
              (goingPlayers [Sample.ann; Sample.bob; Sample.cy]
                            [Sample.going Sample.ann; Sample.going Sample.cy]) = Some st /\
      singleRide (newAssignments st))
  /\ singleRide (shown (fst (handleDrop Sample.ids Sample.board (Some "p1") "d2"
                                        Sample.full))).
Proof.
  assert (H1 : NoDup (map Player.id [Sample.ann; Sample.bob; Sample.cy]))
    by nodup_concrete.
  assert (H2 : singleRide (shown Sample.full)) by (unfold singleRide; nodup_concrete).
  destruct (single_ride_maintained Sample.ids Sample.ev
              [Sample.ann; Sample.bob; Sample.cy] []
              [Sample.going Sample.ann; Sample.going Sample.cy]
              [Sample.dana_drives] Sample.board (Some "p1") "d2" Sample.full H1 H2)
    as (A & _ & B & _).
  split; assumption.
Defined.

(* ------------------------------------------------------------------------- *)
(** ** The scenarios of the specification *)

(** One driver with two seats and one child seat; Ann needs a child seat,
    Bob and Cy do not: Ann and Bob ride, Cy is unassigned. *)
Example scenario_three_players :
  generateCarpool Sample.ids Sample.ev [Sample.bob; Sample.ann; Sample.cy] []
                  [Sample.going Sample.ann; Sample.going Sample.bob;
                   Sample.going Sample.cy]
                  [Sample.dana_drives] Sample.empty
  = Some (mkWorld
            [Sample.row "id0" "d1" "p1"; Sample.row "id1" "d1" "p2";
             Sample.row "id2" "unassigned" "p3"]
            [Sample.row "id0" "d1" "p1"; Sample.row "id1" "d1" "p2";
             Sample.row "id2" "unassigned" "p3"]
            TabCarpool ["Carpool generated. 1 players unassigned."]).
Proof. reflexivity. Qed.

(** A rule forbids Dana for Ann, the only child-seat fit: Ann is unassigned
    although Dana has room. *)
Example scenario_veto :
  generateCarpool Sample.ids Sample.ev [Sample.ann]
                  [Eligibility.mk "d1" "p1" false none]
                  [Sample.going Sample.ann]
                  [Sample.dana_drives; Sample.eli_drives] Sample.empty
  = Some (mkWorld [Sample.row "id0" "unassigned" "p1"]
                  [Sample.row "id0" "unassigned" "p1"]
                  TabCarpool ["Carpool generated. 1 players unassigned."]).
Proof. reflexivity. Qed.

(** A record without seat counts is never full: the comparison of
    [undefined] and of [NaN] with 0 is false. *)
Example scenario_missing_counts :
  option_map (fun st => (map Bucket.remainingSeats (buckets st),
                         map Assignment.driverId (newAssignments st)))
             (runPass Sample.ids Sample.ev [] [Sample.dana_bare]
                      [Sample.bob; Sample.cy])
  = Some ([JNaN], ["d1"; "d1"]).
Proof. reflexivity. Qed.

(* ------------------------------------------------------------------------- *)
(** ** More on the pass: which rows a run emits *)

Lemma map_update_same {A B : Type} (g : A -> B) (f : A -> A) (l : list A) (i : nat) :
  (forall x, g (f x) = g x) -> map g (update i f l) = map g l.
Proof.
  intros H. revert i. induction l as [|x l IH]; intros [|i]; simpl; auto.
  - now rewrite H.
  - now rewrite IH.
Qed.

Lemma In_update {A : Type} (f : A -> A) (l : list A) (i : nat) (x : A) :
  In x (update i f l) -> In x l \/ exists y, In y l /\ x = f y.
Proof.
  revert i. induction l as [|y l IH]; intros [|i]; simpl; auto.
  - intros [<- | H]; eauto.
  - intros [<- | H]; auto. destruct (IH _ H) as [H' | (z & Hz & ->)]; eauto.
Qed.

Lemma In_update_keep {A : Type} (f : A -> A) (l : list A) (i : nat) (x : A) :
  In x l -> In x (update i f l) \/ In (f x) (update i f l).
Proof.
  revert i. induction l as [|y l IH]; intros [|i]; simpl; auto.
  - intros [-> | H]; auto.
  - intros [-> | H]; auto. destruct (IH i H); auto.
Qed.

Lemma processPlayer_driverIds (rnd : nat -> ID) (eventId : ID)
      (rules : list Eligibility.t) (st st' : LoopState) (p : Player.t) :
  processPlayer rnd eventId rules st p = Some st' ->
  map Bucket.driverId (buckets st') = map Bucket.driverId (buckets st).
Proof.
  intros E.
  destruct (processPlayer_cases rnd eventId rules st p)
    as [[_ E'] | (k & b & _ & E')]; rewrite E' in E; injection E as <-; simpl; auto.
  apply map_update_same. intros x. apply seat_driverId.
Qed.

Lemma mkBuckets_driverIds (active : list EventDriver.t) :
  map Bucket.driverId (mkBuckets active) = map EventDriver.driverId active.
Proof. unfold mkBuckets. rewrite map_map. reflexivity. Qed.

(** The invariant behind the next three properties: the driver ids of the
    buckets never change, a row names a bucket or is 'unassigned', and the
    unassigned list is the list of players of the rows that do not come
    from a bucket. *)
Lemma rows_of_buckets (rnd : nat -> ID) (eventId : ID) (rules : list Eligibility.t)
      (active : list EventDriver.t) (going : list Player.t) (st : LoopState) :
  runPass rnd eventId rules active going = Some st ->
  map Bucket.driverId (buckets st) = map EventDriver.driverId active /\
  (forall a, In a (newAssignments st) ->
             Assignment.driverId a = unassigned \/
             In (Assignment.driverId a) (map EventDriver.driverId active)) /\
  (~ In unassigned (map EventDriver.driverId active) ->
   unassignedIds st = map Assignment.playerId (getUnassigned (newAssignments st))).
Proof.
  intros E. unfold runPass in E.
  refine (processPlayers_invariant rnd eventId rules
            (fun _ s =>
               map Bucket.driverId (buckets s) = map EventDriver.driverId active /\
               (forall a, In a (newAssignments s) ->
                          Assignment.driverId a = unassigned \/
                          In (Assignment.driverId a) (map EventDriver.driverId active)) /\
               (~ In unassigned (map EventDriver.driverId active) ->
                unassignedIds s
                = map Assignment.playerId (getUnassigned (newAssignments s))))
            _ _ [] _ st _ E).
  - clear. intros _ st p st' (Hids & Hrows & Hun) E.
    pose proof (processPlayer_driverIds _ _ _ _ _ _ E) as Hids'.
    split; [congruence|].
    destruct (processPlayer_cases rnd eventId rules st p)
      as [[_ E'] | (k & b & (Hk & _) & E')]; rewrite E' in E; injection E as <-;
      simpl in *.
    + split.
      * intros a Ha. apply in_app_or in Ha. destruct Ha as [Ha | [<- | []]]; auto.
      * intros Hno. unfold getUnassigned. rewrite filter_app, map_app. simpl.
        fold (getUnassigned (newAssignments st)). now rewrite <- (Hun Hno).
    + assert (Hin : In (Bucket.driverId b) (map EventDriver.driverId active)).
      { rewrite <- Hids. apply in_map. eapply nth_error_In; eauto. }
      split.
      * intros a Ha. apply in_app_or in Ha. destruct Ha as [Ha | [<- | []]]; auto.
      * intros Hno. unfold getUnassigned. rewrite filter_app, map_app. simpl.
        fold (getUnassigned (newAssignments st)).
        destruct (Bucket.driverId b =? unassigned)%string eqn:Eb.
        -- apply String.eqb_eq in Eb. rewrite Eb in Hin. contradiction.
        -- simpl. rewrite app_nil_r. now apply Hun.
  - simpl. split; [apply mkBuckets_driverIds|]. split; [intros a []|reflexivity].
Qed.

(** X1. A successful run emits exactly one row per candidate (a player whose
    first attendance record says going and needing a ride), in processing
    order, each carrying the event's id and direction 'both'; a player who
    is not a candidate gets no row. *)
Theorem one_row_per_candidate (rnd : nat -> ID) (eventId : ID)
        (allPlayers : list Player.t) (rules : list Eligibility.t)
        (att : list EventAttendance.t) (led : list EventDriver.t) (w : World) :
  activeDrivers led <> [] ->
  exists w',
    generateCarpool rnd eventId allPlayers rules att led w = Some w' /\
    map Assignment.playerId (shown w')
    = map Player.id (sortedPlayers (goingPlayers allPlayers att)) /\
    Permutation (map Assignment.playerId (shown w'))
                (map Player.id (goingPlayers allPlayers att)) /\
    (forall a, In a (shown w') ->
               Assignment.eventId a = eventId /\ Assignment.direction a = dir_both /\
               exists p r,
                 In p allPlayers /\ Player.id p = Assignment.playerId a /\
                 find (fun x => (EventAttendance.playerId x =? Player.id p)%string) att
                 = Some r /\
                 EventAttendance.isGoing r = true /\
                 EventAttendance.needsRide r = true).
Proof.
  intros Hne.
  destruct (generateCarpool_run rnd eventId allPlayers rules att led w Hne)
    as (st & R & G).
  eexists. split; [exact G|]. simpl.
  destruct (runPass_rows _ _ _ _ _ _ R) as (Hm & Hall & _).
  split; [exact Hm|]. split.
  - rewrite Hm, sortedPlayers_eq. apply Permutation_map. apply partition_perm.
  - intros a Ha. destruct (Hall a Ha) as [He Hd]. split; [exact He|]. split; [exact Hd|].
    assert (Hin : In (Assignment.playerId a)
                     (map Player.id (sortedPlayers (goingPlayers allPlayers att)))).
    { rewrite <- Hm. now apply in_map. }
    apply in_map_iff in Hin. destruct Hin as (p & Hp & Hin).
    rewrite sortedPlayers_eq in Hin. apply in_app_or in Hin.
    assert (Hg : In p (goingPlayers allPlayers att)).
    { destruct Hin as [Hin | Hin]; now apply filter_In in Hin. }
    unfold goingPlayers in Hg. apply filter_In in Hg. destruct Hg as [Hp' Hatt].
    destruct (find (fun x => (EventAttendance.playerId x =? Player.id p)%string) att)
      as [r|] eqn:Er; [|discriminate].
    apply andb_true_iff in Hatt. destruct Hatt as [H1 H2].
    exists p, r. auto.
Qed.

Lemma one_row_per_candidate_witness :
  exists w',
    generateCarpool Sample.ids Sample.ev [Sample.bob; Sample.ann; Sample.cy] []
                    [Sample.going Sample.ann; Sample.going Sample.bob]
                    [Sample.dana_drives] Sample.empty = Some w' /\
    map Assignment.playerId (shown w') = ["p1"; "p2"].
Proof.
  destruct (one_row_per_candidate Sample.ids Sample.ev
              [Sample.bob; Sample.ann; Sample.cy] []
              [Sample.going Sample.ann; Sample.going Sample.bob]
              [Sample.dana_drives] Sample.empty) as (w' & G & Hm & _).
  - discriminate.
  - exists w'. split; [exact G|]. rewrite Hm. reflexivity.
Defined.

Lemma generateCarpool_rows_fixed (rnd : nat -> ID) (eventId : ID)
      (allPlayers : list Player.t) (rules : list Eligibility.t)
      (att : list EventAttendance.t) (led : list EventDriver.t) :
  activeDrivers led <> [] ->
  exists rows n,
    forall w,
      generateCarpool rnd eventId allPlayers rules att led w
      = Some (mkWorld
                (filter (fun a => negb (Assignment.eventId a =? eventId)%string)
                        (stored w) ++ rows)
                rows TabCarpool (alerts w ++ [generatedMessage n])).
Proof.
  intros Hne.
  destruct (runPass_total rnd eventId rules (activeDrivers led)
                          (goingPlayers allPlayers att)) as [st R].
  exists (newAssignments st), (List.length (unassignedIds st)). intros w.
  destruct (generateCarpool_run rnd eventId allPlayers rules att led w Hne)
    as (st' & R' & G).
  rewrite R in R'. injection R' as <-. exact G.
Qed.

(** X2. A successful run replaces the event's rows wholesale: the rows it
    stores and shows, and the count in its alert, do not depend on what was
    stored or shown before, and the stored rows of the other events are
    kept, in order, ahead of the new rows. *)
Theorem regenerate_replaces_event_rows (rnd : nat -> ID) (eventId : ID)
        (allPlayers : list Player.t) (rules : list Eligibility.t)
        (att : list EventAttendance.t) (led : list EventDriver.t) (w1 w2 : World) :
  activeDrivers led <> [] ->
  exists rows n,
    generateCarpool rnd eventId allPlayers rules att led w1
    = Some (mkWorld
              (filter (fun a => negb (Assignment.eventId a =? eventId)%string) (stored w1)
                 ++ rows)
              rows TabCarpool (alerts w1 ++ [generatedMessage n])) /\
    generateCarpool rnd eventId allPlayers rules att led w2
    = Some (mkWorld
              (filter (fun a => negb (Assignment.eventId a =? eventId)%string) (stored w2)
                 ++ rows)
              rows TabCarpool (alerts w2 ++ [generatedMessage n])) /\
    (forall a, In a rows -> Assignment.eventId a = eventId).
Proof.
  intros Hne.
  destruct (generateCarpool_run rnd eventId allPlayers rules att led w1 Hne)
    as (st & R & G1).
  destruct (generateCarpool_run rnd eventId allPlayers rules att led w2 Hne)
    as (st2 & R2 & G2).
  rewrite R in R2. injection R2 as <-.
  exists (newAssignments st), (List.length (unassignedIds st)).
  split; [exact G1|]. split; [exact G2|].
  intros a Ha. destruct (runPass_rows _ _ _ _ _ _ R) as (_ & Hall & _).
  now apply Hall.
Qed.

Lemma regenerate_replaces_event_rows_witness :
  exists rows n,
    generateCarpool Sample.ids Sample.ev [Sample.ann] [] [Sample.going Sample.ann]
                    [Sample.dana_drives] Sample.full
    = Some (mkWorld
              (filter (fun a => negb (Assignment.eventId a =? Sample.ev)%string)
                      (stored Sample.full) ++ rows)
              rows TabCarpool (alerts Sample.full ++ [generatedMessage n])) /\
    generateCarpool Sample.ids Sample.ev [Sample.ann] [] [Sample.going Sample.ann]
                    [Sample.dana_drives] Sample.empty
    = Some (mkWorld
              (filter (fun a => negb (Assignment.eventId a =? Sample.ev)%string)
                      (stored Sample.empty) ++ rows)
              rows TabCarpool (alerts Sample.empty ++ [generatedMessage n])) /\
    (forall a, In a rows -> Assignment.eventId a = Sample.ev).
Proof.
  apply (regenerate_replaces_event_rows Sample.ids Sample.ev [Sample.ann] []
           [Sample.going Sample.ann] [Sample.dana_drives] Sample.full Sample.empty).
  discriminate.
Defined.

Lemma columnLoads_snoc (rows : list Assignment.t) (a : Assignment.t)
      (cols : list EventDriver.t) :
  NoDup (map EventDriver.driverId cols) ->
  columnLoads (rows ++ [a]) cols
  = (columnLoads rows cols
     + if in_dec string_dec (Assignment.driverId a) (map EventDriver.driverId cols)
       then 1 else 0)%nat.
Proof.
  induction cols as [|ed cols IH]; simpl; intros Hnd; auto.
  apply NoDup_cons_iff in Hnd. destruct Hnd as [Hed Hnd].
  rewrite getDriverLoad_snoc, (IH Hnd).
  destruct (string_dec (EventDriver.driverId ed) (Assignment.driverId a)) as [Heq | Hne].
  - rewrite <- Heq, String.eqb_refl.
    destruct (in_dec string_dec (EventDriver.driverId ed)
                     (map EventDriver.driverId cols)); [contradiction | lia].
  - assert (E : (Assignment.driverId a =? EventDriver.driverId ed)%string = false)
      by (apply String.eqb_neq; congruence).
    rewrite E.
    destruct (in_dec string_dec (Assignment.driverId a)
                     (map EventDriver.driverId cols)); lia.
Qed.

(** X3. When no active record uses the id 'unassigned', the rows of a run
    are split between the board's Unassigned column and the columns of the
    active drivers (each row sits in exactly one column when the driver ids
    are distinct), and the number in the alert of the run is the size of the
    Unassigned column. *)
Theorem rows_fill_the_board (rnd : nat -> ID) (eventId : ID)
        (allPlayers : list Player.t) (rules : list Eligibility.t)
        (att : list EventAttendance.t) (led : list EventDriver.t) (w : World) :
  activeDrivers led <> [] ->
  NoDup (map EventDriver.driverId (activeDrivers led)) ->
  ~ In unassigned (map EventDriver.driverId (activeDrivers led)) ->
  exists w',
    generateCarpool rnd eventId allPlayers rules att led w = Some w' /\
    (forall a, In a (shown w') ->
               Assignment.driverId a = unassigned \/
               exists d, In d (activeDrivers led) /\
                         EventDriver.driverId d = Assignment.driverId a) /\
    List.length (shown w')
    = (List.length (getUnassigned (shown w'))
       + columnLoads (shown w') (activeDrivers led))%nat /\
    alerts w'
    = alerts w ++ [generatedMessage (List.length (getUnassigned (shown w')))].
Proof.
  intros Hne Hnd Hno.
  destruct (generateCarpool_run rnd eventId allPlayers rules att led w Hne)
    as (st & R & G).
  eexists. split; [exact G|]. simpl.
  destruct (rows_of_buckets _ _ _ _ _ _ R) as (_ & Hrows & Hun).
  split; [|split].
  - intros a Ha. destruct (Hrows a Ha) as [H | H]; auto.
    right. apply in_map_iff in H. destruct H as (d & Hd & Hin). eauto.
  - clear G R Hun. induction (newAssignments st) as [|a rows IH] using rev_ind.
    + simpl. clear. induction (activeDrivers led); simpl; auto.
    + assert (Hrows' : forall x, In x rows ->
                                 Assignment.driverId x = unassigned \/
                                 In (Assignment.driverId x)
                                    (map EventDriver.driverId (activeDrivers led))).
      { intros x Hx. apply Hrows. apply in_or_app. now left. }
      specialize (IH Hrows').
      rewrite (columnLoads_snoc _ _ _ Hnd). unfold getUnassigned in *.
      rewrite filter_app, !length_app. simpl.
      destruct (Hrows a) as [Hu | Hin]; [apply in_or_app; right; now left | |].
      * rewrite Hu, String.eqb_refl. simpl.
        destruct (in_dec string_dec unassigned
                         (map EventDriver.driverId (activeDrivers led)));
          [contradiction | lia].
      * destruct (in_dec string_dec (Assignment.driverId a)
                         (map EventDriver.driverId (activeDrivers led)));
          [|contradiction].
        destruct (Assignment.driverId a =? unassigned)%string eqn:Eu.
        -- apply String.eqb_eq in Eu. rewrite Eu in Hin. contradiction.
        -- simpl. lia.
  - rewrite (Hun Hno), length_map. reflexivity.
Qed.

Lemma rows_fill_the_board_witness :
  exists w',
    generateCarpool Sample.ids Sample.ev [Sample.ann; Sample.bob; Sample.cy] []
                    [Sample.going Sample.ann; Sample.going Sample.bob;
                     Sample.going Sample.cy]
                    [Sample.dana_drives; Sample.eli_stays] Sample.empty = Some w' /\
    List.length (shown w')
    = (List.length (getUnassigned (shown w'))
       + columnLoads (shown w') (activeDrivers [Sample.dana_drives; Sample.eli_stays]))%nat /\
    alerts w'
    = alerts Sample.empty
        ++ [generatedMessage (List.length (getUnassigned (shown w')))].
Proof.
  destruct (rows_fill_the_board Sample.ids Sample.ev
              [Sample.ann; Sample.bob; Sample.cy] []
              [Sample.going Sample.ann; Sample.going Sample.bob; Sample.going Sample.cy]
              [Sample.dana_drives; Sample.eli_stays] Sample.empty)
    as (w' & G & _ & Hlen & Hal).
  - discriminate.
  - nodup_concrete.
  - simpl. intros [H | []]. discriminate H.
  - exists w'. auto.
Defined.

(* ------------------------------------------------------------------------- *)
(** ** The pass is maximal *)


Lemma double_round_sign (z : Z) :
  (0 <= z -> 0 <= double_round z) /\ (z <= 0 -> double_round z <= 0).
Proof.
  unfold double_round.
  destruct (Z.abs z <=? 2 ^ 53) eqn:E; [split; auto|].
  apply Z.leb_gt in E.
  assert (He : 1 <= Z.log2 (Z.abs z) - 52).
  { assert (H : Z.log2 (2 ^ 53) <= Z.log2 (Z.abs z))
      by (apply Z.log2_le_mono; lia).
    rewrite Z.log2_pow2 in H; lia. }
  set (e := Z.log2 (Z.abs z) - 52) in *.
  assert (Hp : 0 < 2 ^ e) by (apply Z.pow_pos_nonneg; lia).
  assert (Hq : 0 <= Z.abs z / 2 ^ e) by (apply Z.div_pos; lia).
  set (q := Z.abs z / 2 ^ e) in *.
  assert (Hq' : 0 <= (if Z.abs z mod 2 ^ e <? 2 ^ (e - 1) then q
                      else if 2 ^ (e - 1) <? Z.abs z mod 2 ^ e then q + 1
                      else if Z.even q then q else q + 1)).
  { destruct (Z.abs z mod 2 ^ e <? 2 ^ (e - 1)); [lia|].
    destruct (2 ^ (e - 1) <? Z.abs z mod 2 ^ e); [lia|].
    destruct (Z.even q); lia. }
  split; intros Hz.
  - rewrite Z.sgn_pos by lia. nia.
  - rewrite Z.sgn_neg by lia. nia.
Qed.


Lemma js_le0_dec (x : jsnum) : js_le0 x = true -> js_le0 (js_dec x) = true.
Proof.
  destruct x as [z| | |]; simpl; try discriminate; auto.
  intros H. apply Z.leb_le in H. apply Z.leb_le.
  apply double_round_sign. lia.
Qed.



(** Seating somebody never makes a bucket feasible for anybody. *)
Lemma feasible_seat (rules : list Eligibility.t) (p q : Player.t) (b : Bucket.t) :
  feasible rules p (seat q b) = true -> feasible rules p b = true.
Proof.
  unfold feasible. rewrite seat_driverId, seat_remainingSeats, seat_remainingChildSeats.
  intros H. apply andb_true_iff in H. destruct H as [H Hal].
  apply andb_true_iff in H. destruct H as [Hs Hc].
  rewrite Hal, andb_true_r. apply andb_true_iff. split.
  - destruct (js_le0 (Bucket.remainingSeats b)) eqn:E; auto.
    now rewrite (js_le0_dec _ E) in Hs.
  - destruct (Player.needsChildSeat p); simpl in *; auto.
    destruct (js_le0 (Bucket.remainingChildSeats b)) eqn:E; auto.
    destruct (Player.needsChildSeat q); [|now rewrite E in Hc].
    now rewrite (js_le0_dec _ E) in Hc.
Qed.

Lemma seat_lists (q : Player.t) (b : Bucket.t) :
  Bucket.assignedPlayerIds (seat q b) = Bucket.assignedPlayerIds b ++ [Player.id q].
Proof. unfold seat. now destruct (Player.needsChildSeat q). Qed.

(** X4. The greedy pass is maximal. At the end of a pass every candidate is
    either listed in the bucket of the driver of their row, or their row is
    'unassigned' and no bucket is feasible for them any more: each bucket
    is out of seats, or out of child seats while the player needs one, or
    vetoed by [isAllowed]. *)
Theorem pass_is_maximal (rnd : nat -> ID) (eventId : ID)
        (rules : list Eligibility.t) (active : list EventDriver.t)
        (going : list Player.t) :
  exists st,
    runPass rnd eventId rules active going = Some st /\
    List.length (newAssignments st) = List.length (sortedPlayers going) /\
    forall p a,
      In (p, a) (combine (sortedPlayers going) (newAssignments st)) ->
      Assignment.playerId a = Player.id p /\
      ((exists b, In b (buckets st) /\
                  Bucket.driverId b = Assignment.driverId a /\
                  In (Player.id p) (Bucket.assignedPlayerIds b))
       \/
       (Assignment.driverId a = unassigned /\
        forall b, In b (buckets st) -> feasible rules p b = false)).
Proof.
  destruct (runPass_total rnd eventId rules active going) as [st E].
  exists st. split; [exact E|].
  pose proof (runPass_rows _ _ _ _ _ _ E) as (_ & _ & Hlen).
  split; [exact Hlen|].
  unfold runPass in E.
  refine (proj2 (processPlayers_invariant rnd eventId rules
            (fun done s =>
               List.length (newAssignments s) = List.length done /\
               forall p a,
                 In (p, a) (combine done (newAssignments s)) ->
                 Assignment.playerId a = Player.id p /\
                 ((exists b, In b (buckets s) /\
                             Bucket.driverId b = Assignment.driverId a /\
                             In (Player.id p) (Bucket.assignedPlayerIds b))
                  \/
                  (Assignment.driverId a = unassigned /\
                   forall b, In b (buckets s) -> feasible rules p b = false)))
            _ _ [] _ st _ E)).
  - clear. intros done st q st' (Hlen & Hinv) E.
    destruct (processPlayer_cases rnd eventId rules st q)
      as [[Hall E'] | (k & b & (Hk & Hb & _) & E')]; rewrite E' in E;
      injection E as <-; simpl.
    + split; [now rewrite !length_app, Hlen|].
      intros p a Hin. rewrite combine_snoc in Hin by congruence.
      apply in_app_or in Hin. destruct Hin as [Hin | [[= <- <-] | []]].
      * now apply Hinv.
      * simpl. split; [reflexivity|]. right. split; [reflexivity | exact Hall].
    + split; [now rewrite !length_app, Hlen|].
      intros p a Hin. rewrite combine_snoc in Hin by congruence.
      apply in_app_or in Hin. destruct Hin as [Hin | [[= <- <-] | []]].
      * destruct (Hinv p a Hin) as [Hid [(b0 & Hb0 & Hd & Hl) | [Hu Hnone]]].
        -- split; [exact Hid|]. left.
           destruct (In_update_keep (seat q) (buckets st) k b0 Hb0) as [H | H].
           ++ exists b0. auto.
           ++ exists (seat q b0). rewrite seat_driverId, seat_lists.
              split; [exact H|]. split; [exact Hd|]. apply in_or_app. now left.
        -- split; [exact Hid|]. right. split; [exact Hu|].
           intros b' Hb'. apply In_update in Hb'.
           destruct Hb' as [Hb' | (y & Hy & ->)]; [now apply Hnone|].
           destruct (feasible rules p (seat q y)) eqn:F; auto.
           apply feasible_seat in F. now rewrite (Hnone y Hy) in F.
      * simpl. split; [reflexivity|]. left. exists (seat q b).
        rewrite seat_driverId, seat_lists.
        split; [|split; [reflexivity | apply in_or_app; right; now left]].
        eapply nth_error_In. apply nth_error_update_eq. exact Hk.
  - simpl. split; [reflexivity | intros p a []].
Qed.

(** Cy is left out, and at the end Dana's bucket has no seat for him. *)
Lemma pass_is_maximal_witness :
  exists st,
    runPass Sample.ids Sample.ev [] [Sample.dana_drives]
            [Sample.ann; Sample.bob; Sample.cy] = Some st /\
    map Assignment.driverId (newAssignments st) = ["d1"; "d1"; "unassigned"] /\
    forall b, In b (buckets st) -> feasible [] Sample.cy b = false.
Proof.
  destruct (pass_is_maximal Sample.ids Sample.ev [] [Sample.dana_drives]
                            [Sample.ann; Sample.bob; Sample.cy])
    as (st & E & _ & H).
  exists st. split; [exact E|].
  vm_compute in E. injection E as <-. split; [reflexivity|].
  destruct (H Sample.cy (Sample.row "id2" "unassigned" "p3"))
    as [_ [(b & Hb & Hd & _) | [_ Hn]]].
  - right. right. now left.
  - destruct Hb as [<- | []]. discriminate Hd.
  - exact Hn.
Defined.

(* ------------------------------------------------------------------------- *)
(** ** Runs and overrides, one after the other *)

Lemma filter_neg_all {A : Type} (keep : A -> bool) (xs : list A) :
  (forall x, In x xs -> keep x = true) -> filter (fun x => negb (keep x)) xs = [].
Proof.
  intros H. apply filter_none. intros x Hx. now rewrite (H x Hx).
Qed.

Lemma filter_neg_idem {A : Type} (keep : A -> bool) (xs : list A) :
  filter (fun x => negb (keep x)) (filter (fun x => negb (keep x)) xs)
  = filter (fun x => negb (keep x)) xs.
Proof. apply (filter_idem (fun x => negb (keep x))). Qed.

Lemma handleDrop_other_events (rnd : nat -> ID) (props : BoardProps)
      (dragged : option ID) (target : ID) (w : World) :
  (forall a, In a (shown w) -> Assignment.eventId a = boardEventId props) ->
  filter (fun a => negb (Assignment.eventId a =? boardEventId props)%string)
         (stored (fst (handleDrop rnd props dragged target w)))
  = filter (fun a => negb (Assignment.eventId a =? boardEventId props)%string)
           (stored w).
Proof.
  intros Hev. destruct (falsy dragged) eqn:Hf.
  - now rewrite handleDrop_idle.
  - destruct dragged as [pid|]; [|discriminate]. simpl in Hf.
    apply String.eqb_neq in Hf. rewrite (handleDrop_dragging _ _ _ _ _ Hf). simpl.
    rewrite !filter_app, filter_neg_idem. simpl. rewrite String.eqb_refl. simpl.
    rewrite (filter_neg_all
               (fun a => (Assignment.eventId a =? boardEventId props)%string)
               (filter (fun a => negb (Assignment.playerId a =? pid)%string) (shown w))).
    + simpl. now rewrite app_nil_r.
    + intros a Ha. apply filter_In in Ha. destruct Ha as [Ha _].
      apply String.eqb_eq. now apply Hev.
Qed.

(* ------------------------------------------------------------------------- *)
(** ** More on the manual override *)

(** X7. One drag gives one write: a drop clears the drag state, so a second
    drop that is not preceded by a new drag changes nothing, whatever its
    target. *)
Theorem one_drag_one_write (rnd rnd' : nat -> ID) (props : BoardProps)
        (dragged : option ID) (target target' : ID) (w : World) :
  handleDrop rnd' props (snd (handleDrop rnd props dragged target w)) target'
             (fst (handleDrop rnd props dragged target w))
  = handleDrop rnd props dragged target w.
Proof.
  destruct (falsy dragged) eqn:Hf.
  - rewrite (handleDrop_idle rnd) by exact Hf. simpl.
    now rewrite handleDrop_idle.
  - destruct dragged as [pid|]; [|discriminate]. simpl in Hf.
    apply String.eqb_neq in Hf. rewrite (handleDrop_dragging _ _ _ _ _ Hf). simpl.
    now rewrite handleDrop_idle.
Qed.

(** X8. The last drop wins: when the displayed rows are this event's rows,
    dragging a player to one column and then to another leaves the world
    that dragging them to the second column at once leaves. *)
Theorem last_drop_wins (rnd1 rnd2 : nat -> ID) (props : BoardProps)
        (pid first second : ID) (w : World) :
  (forall a, In a (shown w) -> Assignment.eventId a = boardEventId props) ->
  handleDrop rnd2 props (Some pid) second
             (fst (handleDrop rnd1 props (Some pid) first w))
  = handleDrop rnd2 props (Some pid) second w.
Proof.
  intros Hev. destruct (String.eqb_spec pid "") as [-> | Hpid].
  - now rewrite (handleDrop_idle rnd1).
  - pose proof (handleDrop_other_events rnd1 props (Some pid) first w Hev) as Ho.
    rewrite !(handleDrop_dragging _ _ _ _ _ Hpid) in *. simpl in *.
    assert (Hk : filter (fun a => (Assignment.eventId a =? boardEventId props)%string)
                        (filter (fun a => negb (Assignment.playerId a =? pid)%string)
                                (shown w))
                 = filter (fun a => negb (Assignment.playerId a =? pid)%string) (shown w)).
    { apply filter_all. intros a Ha. apply filter_In in Ha. destruct Ha as [Ha _].
      apply String.eqb_eq. now apply Hev. }
    assert (Hk2 : filter (fun a => negb (Assignment.playerId a =? pid)%string)
                         (filter (fun a => negb (Assignment.playerId a =? pid)%string)
                                 (shown w)
                            ++ [Assignment.mk (rnd1 O) (boardEventId props) first pid
                                              dir_both])
                  = filter (fun a => negb (Assignment.playerId a =? pid)%string)
                           (shown w)).
    { rewrite filter_app, (filter_idem (fun a => negb (Assignment.playerId a =? pid)%string)).
      simpl. rewrite String.eqb_refl. simpl. now rewrite app_nil_r. }
    now rewrite Ho, Hk, Hk2, Hk.
Qed.

Lemma last_drop_wins_witness :
  handleDrop Sample.ids' Sample.board (Some "p3") "unassigned"
             (fst (handleDrop Sample.ids Sample.board (Some "p3") "d1" Sample.full))
  = handleDrop Sample.ids' Sample.board (Some "p3") "unassigned" Sample.full.
Proof.
  apply (last_drop_wins Sample.ids Sample.ids' Sample.board "p3" "d1" "unassigned"
                        Sample.full).
  intros a [<- | [<- | [<- | []]]]; reflexivity.
Defined.

Lemma singleRide_split (l : list Assignment.t) (a0 : Assignment.t) (eventId : ID) :
  singleRide l ->
  (forall a, In a l -> Assignment.eventId a = eventId) ->
  In a0 l ->
  exists l1 l2,
    l = l1 ++ a0 :: l2 /\
    (forall a, In a (l1 ++ l2) -> Assignment.playerId a <> Assignment.playerId a0).
Proof.
  intros Hs Hev Hin. apply in_split in Hin. destruct Hin as (l1 & l2 & ->).
  exists l1, l2. split; [reflexivity|]. intros a Ha Heq.
  unfold singleRide in Hs. rewrite map_app in Hs. simpl in Hs.
  apply NoDup_remove_2 in Hs. apply Hs. rewrite <- map_app.
  apply in_map_iff. exists a. split; [|exact Ha].
  rewrite Heq. f_equal. rewrite (Hev a0), (Hev a); auto.
  - apply in_app_or in Ha. apply in_or_app.
    destruct Ha; [now left | right; now right].
  - apply in_or_app. right. now left.
Qed.

(** X9. A move keeps the head count. When the displayed rows are this
    event's rows with at most one row per player and the dragged player's
    row is [a0], the drop leaves as many rows as before, and for every
    driver id the load changes by +1 if it is the target and by -1 if it is
    the driver of [a0] (so not at all when both hold or neither does). *)
Theorem move_keeps_head_count (rnd : nat -> ID) (props : BoardProps)
        (target : ID) (a0 : Assignment.t) (w : World) :
  Assignment.playerId a0 <> "" ->
  singleRide (shown w) ->
  (forall a, In a (shown w) -> Assignment.eventId a = boardEventId props) ->
  In a0 (shown w) ->
  List.length (shown (fst (handleDrop rnd props (Some (Assignment.playerId a0))
                                      target w)))
  = List.length (shown w) /\
  forall did,
    (getDriverLoad (shown (fst (handleDrop rnd props (Some (Assignment.playerId a0))
                                           target w))) did
     + (if (Assignment.driverId a0 =? did)%string then 1 else 0)
     = getDriverLoad (shown w) did
       + (if (target =? did)%string then 1 else 0))%nat.
Proof.
  intros Hpid Hs Hev Hin.
  rewrite (handleDrop_dragging _ _ _ _ _ Hpid). simpl.
  destruct (singleRide_split _ _ _ Hs Hev Hin) as (l1 & l2 & Hl & Hothers).
  assert (Hk : filter (fun a => negb (Assignment.playerId a
                                      =? Assignment.playerId a0)%string) (shown w)
               = l1 ++ l2).
  { rewrite Hl, !filter_app. simpl. rewrite String.eqb_refl. simpl.
    rewrite <- filter_app. apply filter_all. intros a Ha.
    apply negb_true_iff, String.eqb_neq. now apply Hothers. }
  assert (Hk' : filter (fun a => (Assignment.eventId a =? boardEventId props)%string)
                       (l1 ++ l2) = l1 ++ l2).
  { apply filter_all. intros a Ha. apply String.eqb_eq. apply Hev.
    rewrite Hl. apply in_app_or in Ha. apply in_or_app.
    destruct Ha; [now left | right; now right]. }
  rewrite Hk, Hk'. split.
  - rewrite Hl, !length_app. simpl. lia.
  - intros did. rewrite getDriverLoad_snoc. simpl. rewrite Hl.
    unfold getDriverLoad. rewrite !filter_app, !length_app. simpl.
    destruct (Assignment.driverId a0 =? did)%string; simpl; lia.
Qed.

(** Bob moves from Dana's column to the Unassigned column. *)
Lemma move_keeps_head_count_witness :
  List.length (shown (fst (handleDrop Sample.ids Sample.board (Some "p2") "unassigned"
                                      Sample.full)))
  = List.length (shown Sample.full) /\
  forall did,
    (getDriverLoad (shown (fst (handleDrop Sample.ids Sample.board (Some "p2")
                                           "unassigned" Sample.full))) did
     + (if ("d1" =? did)%string then 1 else 0)
     = getDriverLoad (shown Sample.full) did
       + (if ("unassigned" =? did)%string then 1 else 0))%nat.
Proof.
  apply (move_keeps_head_count Sample.ids Sample.board "unassigned"
                               (Sample.row "b" "d1" "p2") Sample.full).
  - discriminate.
  - unfold singleRide. nodup_concrete.
  - intros a [<- | [<- | [<- | []]]]; reflexivity.
  - right. now left.
Defined.

(* ------------------------------------------------------------------------- *)
(** ** Toggling drivers and attendance *)

Lemma find_app_split {A : Type} (g : A -> bool) (l1 l2 : list A) :
  find g (l1 ++ l2) = match find g l1 with
                      | Some x => Some x
                      | None => find g l2
                      end.
Proof.
  induction l1 as [|x l1 IH]; simpl; auto. now destruct (g x).
Qed.

Lemma find_filter_out {A : Type} (g h : A -> bool) (l : list A) :
  (forall x, g x = true -> h x = false) -> find g (filter h l) = None.
Proof.
  intros H. induction l as [|x l IH]; simpl; auto.
  destruct (h x) eqn:Eh; auto. simpl.
  destruct (g x) eqn:Eg; auto. rewrite (H x Eg) in Eh. discriminate.
Qed.

Lemma find_filter_keep {A : Type} (g h : A -> bool) (l : list A) :
  (forall x, g x = true -> h x = true) -> find g (filter h l) = find g l.
Proof.
  intros H. induction l as [|x l IH]; simpl; auto.
  destruct (g x) eqn:Eg.
  - rewrite (H x Eg). simpl. now rewrite Eg.
  - destruct (h x); simpl; auto. now rewrite Eg.
Qed.

Lemma NoDup_map_snoc {A : Type} (key : A -> string) (l : list A) (x : A) :
  NoDup (map key l) ->
  NoDup (map key (filter (fun a => negb (key a =? key x)%string) l ++ [x])).
Proof.
  intros H. rewrite map_app. apply NoDup_app.
  - now apply NoDup_map_filter.
  - simpl. constructor; [intros [] | constructor].
  - intros k Hk [<- | []]. apply in_map_iff in Hk. destruct Hk as (a & Ha & Hin).
    apply filter_In in Hin. destruct Hin as [_ Hne].
    apply negb_true_iff, String.eqb_neq in Hne. congruence.
Qed.

Lemma toggleDriver_shape (eventId : ID) (allDrivers : list Driver.t)
      (led : list EventDriver.t) (did : ID) (field : toggle_field)
      (led' : list EventDriver.t) :
  toggleDriver eventId allDrivers led did field = Some led' ->
  exists rec,
    led' = filter (fun d => negb (EventDriver.driverId d =? did)%string) led ++ [rec] /\
    EventDriver.driverId rec = did.
Proof.
  unfold toggleDriver.
  destruct (find (fun d => (EventDriver.driverId d =? did)%string) led) as [ex|] eqn:Ef.
  - apply find_some in Ef. destruct Ef as [_ Hex]. apply String.eqb_eq in Hex.
    destruct field; intros [= <-]; eexists; split; try reflexivity; exact Hex.
  - destruct (find (fun d => (Driver.id d =? did)%string) allDrivers) as [dd|];
      [|discriminate].
    destruct field; intros [= <-]; eexists; split; reflexivity.
Qed.

(** X10. [toggleDriver] keeps one availability record per driver. It fails
    (a TypeError) exactly when the driver has neither an availability record
    nor a roster entry; otherwise the new list is the old one without the
    driver's records, in order, followed by one record for the driver, so
    distinct driver ids stay distinct. *)
Theorem toggleDriver_one_record (eventId : ID) (allDrivers : list Driver.t)
        (led : list EventDriver.t) (did : ID) (field : toggle_field) :
  (toggleDriver eventId allDrivers led did field = None <->
   find (fun d => (EventDriver.driverId d =? did)%string) led = None /\
   find (fun d => (Driver.id d =? did)%string) allDrivers = None)
  /\
  forall led',
    toggleDriver eventId allDrivers led did field = Some led' ->
    exists rec,
      led' = filter (fun d => negb (EventDriver.driverId d =? did)%string) led ++ [rec] /\
      EventDriver.driverId rec = did /\
      filter (fun d => negb (EventDriver.driverId d =? did)%string) led'
      = filter (fun d => negb (EventDriver.driverId d =? did)%string) led /\
      (forall d, In d led' -> EventDriver.driverId d = did -> d = rec) /\
      (NoDup (map EventDriver.driverId led) -> NoDup (map EventDriver.driverId led')).
Proof.
  split.
  - unfold toggleDriver.
    destruct (find (fun d => (EventDriver.driverId d =? did)%string) led) as [ex|].
    + split; [discriminate | intros [H _]; discriminate H].
    + destruct (find (fun d => (Driver.id d =? did)%string) allDrivers) as [dd|].
      * split; [discriminate | intros [_ H]; discriminate H].
      * split; auto.
  - intros led' E. destruct (toggleDriver_shape _ _ _ _ _ _ E) as (rec & -> & Hrec).
    exists rec. split; [reflexivity|]. split; [exact Hrec|]. split; [|split].
    + rewrite filter_app, (filter_idem (fun d => negb (EventDriver.driverId d =? did)%string)).
      simpl. rewrite Hrec, String.eqb_refl. simpl. now rewrite app_nil_r.
    + intros d Hin Hd. apply in_app_or in Hin. destruct Hin as [Hin | [<- | []]]; auto.
      apply filter_In in Hin. destruct Hin as [_ Hne].
      apply negb_true_iff, String.eqb_neq in Hne. contradiction.
    + intros Hnd. rewrite <- Hrec. now apply NoDup_map_snoc.
Qed.

(** X11. Unchecking and re-checking a driver restores the record they had
    for the event: two isDriving toggles give back the same seat counts,
    direction and notes, whatever the roster holds for the driver at either
    toggle (the seat counts of an existing record are never read again from
    the driver's maxima). Only the position changes: the record moves to
    the end of the list. *)
Theorem toggleDriver_twice (eventId : ID) (roster roster' : list Driver.t)
        (led : list EventDriver.t) (did : ID) (ex : EventDriver.t) :
  find (fun d => (EventDriver.driverId d =? did)%string) led = Some ex ->
  exists led1,
    toggleDriver eventId roster led did FIsDriving = Some led1 /\
    In (EventDriver.mk (EventDriver.eventId ex) (EventDriver.driverId ex)
                       (negb (EventDriver.isDriving ex)) (EventDriver.direction ex)
                       (EventDriver.availableSeatsTotal ex)
                       (EventDriver.availableChildSeats ex) (EventDriver.notes ex)) led1 /\
    toggleDriver eventId roster' led1 did FIsDriving
    = Some (filter (fun d => negb (EventDriver.driverId d =? did)%string) led ++ [ex]).
Proof.
  intros Ef. pose proof (find_some _ _ Ef) as [_ Hex]. apply String.eqb_eq in Hex.
  unfold toggleDriver at 1. rewrite Ef. eexists. split; [reflexivity|]. split.
  - apply in_or_app. right. now left.
  - unfold toggleDriver. rewrite find_app_split.
    rewrite (find_filter_out (fun d => (EventDriver.driverId d =? did)%string)).
    + simpl. rewrite Hex, String.eqb_refl.
      rewrite filter_app,
        (filter_idem (fun d => negb (EventDriver.driverId d =? did)%string)).
      simpl. rewrite String.eqb_refl. simpl.
      rewrite app_nil_r, negb_involutive. destruct ex; simpl in *. now subst.
    + intros x Hx. now rewrite Hx.
Qed.

(** Dana's record for the event (2 seats, 1 child seat) survives an
    edit of her roster entry to 7 seats. *)
Lemma toggleDriver_twice_witness :
  exists led1,
    toggleDriver Sample.ev [Sample.dana] [Sample.dana_drives; Sample.eli_stays]
                 "d1" FIsDriving = Some led1 /\
    toggleDriver Sample.ev [Driver.mk "d1" "Dana" true (JNum 7) (JNum 3) ""] led1
                 "d1" FIsDriving
    = Some [Sample.eli_stays; Sample.dana_drives].
Proof.
  destruct (toggleDriver_twice Sample.ev [Sample.dana]
              [Driver.mk "d1" "Dana" true (JNum 7) (JNum 3) ""]
              [Sample.dana_drives; Sample.eli_stays] "d1" Sample.dana_drives)
    as (led1 & E1 & _ & E2).
  - reflexivity.
  - exists led1. split; [exact E1 | exact E2].
Defined.

Lemma toggleAttendance_shape (eventId : ID) (att : list EventAttendance.t)
      (pid : ID) (field : attendance_field) :
  exists rec,
    toggleAttendance eventId att pid field
    = filter (fun a => negb (EventAttendance.playerId a =? pid)%string) att ++ [rec] /\
    EventAttendance.playerId rec = pid /\
    ((forall a, In a att -> EventAttendance.eventId a = eventId) ->
     EventAttendance.eventId rec = eventId) /\
    (field = FIsGoing ->
     EventAttendance.needsRide rec = EventAttendance.isGoing rec /\
     EventAttendance.isGoing rec
     = negb match find (fun a => (EventAttendance.playerId a =? pid)%string) att with
            | Some a => EventAttendance.isGoing a
            | None => false
            end).
Proof.
  unfold toggleAttendance.
  destruct (find (fun a => (EventAttendance.playerId a =? pid)%string) att)
    as [ex|] eqn:Ef.
  - apply find_some in Ef. destruct Ef as [Hin Hex]. apply String.eqb_eq in Hex.
    destruct field; [destruct (EventAttendance.isGoing ex) eqn:Eg|]; simpl;
      eexists; (split; [reflexivity|]); simpl;
      (split; [exact Hex|]);
      (split; [intros H; now apply H|]);
      intros Hfield; try discriminate Hfield; split; reflexivity.
  - destruct field; simpl;
      eexists; (split; [reflexivity|]); simpl;
      (split; [reflexivity|]);
      (split; [reflexivity|]);
      intros Hfield; try discriminate Hfield; split; reflexivity.
Qed.

(** X12. [toggleAttendance] keeps one attendance record per player: the new
    list is the old one without the player's records, in order, followed by
    one record for the player; distinct player ids stay distinct and rows of
    the event stay rows of the event. After a toggle of isGoing the record
    has needsRide equal to isGoing. *)
Theorem toggleAttendance_one_record (eventId : ID) (att : list EventAttendance.t)
        (pid : ID) (field : attendance_field) :
  exists rec,
    toggleAttendance eventId att pid field
    = filter (fun a => negb (EventAttendance.playerId a =? pid)%string) att ++ [rec] /\
    EventAttendance.playerId rec = pid /\
    (NoDup (map EventAttendance.playerId att) ->
     NoDup (map EventAttendance.playerId (toggleAttendance eventId att pid field))) /\
    ((forall a, In a att -> EventAttendance.eventId a = eventId) ->
     forall a, In a (toggleAttendance eventId att pid field) ->
               EventAttendance.eventId a = eventId) /\
    (field = FIsGoing ->
     EventAttendance.needsRide rec = EventAttendance.isGoing rec).
Proof.
  destruct (toggleAttendance_shape eventId att pid field)
    as (rec & E & Hrec & Hev & Hgo).
  exists rec. split; [exact E|]. split; [exact Hrec|]. split; [|split].
  - intros Hnd. rewrite E, <- Hrec. now apply NoDup_map_snoc.
  - intros Hall a Ha. rewrite E in Ha. apply in_app_or in Ha.
    destruct Ha as [Ha | [<- | []]]; [|now apply Hev].
    apply filter_In in Ha. now apply Hall.
  - intros Hf. now apply Hgo.
Qed.

Lemma toggleAttendance_find (eventId : ID) (att : list EventAttendance.t)
      (pid x : ID) (field : attendance_field) :
  find (fun a => (EventAttendance.playerId a =? x)%string)
       (toggleAttendance eventId att pid field)
  = if (x =? pid)%string
    then find (fun a => (EventAttendance.playerId a =? pid)%string)
              (toggleAttendance eventId att pid field)
    else find (fun a => (EventAttendance.playerId a =? x)%string) att.
Proof.
  destruct (String.eqb_spec x pid) as [-> | Hne]; [reflexivity|].
  destruct (toggleAttendance_shape eventId att pid field) as (rec & -> & Hrec & _).
  rewrite find_app_split, find_filter_keep.
  - destruct (find (fun a => (EventAttendance.playerId a =? x)%string) att); auto.
    simpl. rewrite Hrec.
    assert (E : (pid =? x)%string = false) by (apply String.eqb_neq; congruence).
    now rewrite E.
  - intros y Hy. apply String.eqb_eq in Hy. apply negb_true_iff, String.eqb_neq.
    congruence.
Qed.

(** X13. Ticking "going" decides who is a candidate. After a toggle of
    isGoing for [pid], a player with that id is a candidate of the generator
    exactly when they were not going before (no record counts as not
    going); every other player is a candidate exactly when they were one
    before. *)
Theorem toggle_going_sets_candidacy (eventId : ID) (allPlayers : list Player.t)
        (att : list EventAttendance.t) (pid : ID) (p : Player.t) :
  In p (goingPlayers allPlayers (toggleAttendance eventId att pid FIsGoing)) <->
  In p allPlayers /\
  if (Player.id p =? pid)%string
  then match find (fun a => (EventAttendance.playerId a =? pid)%string) att with
       | Some a => EventAttendance.isGoing a = false
       | None => True
       end
  else In p (goingPlayers allPlayers att).
Proof.
  unfold goingPlayers. rewrite filter_In, toggleAttendance_find.
  destruct (String.eqb_spec (Player.id p) pid) as [Hp | Hp];
    [|rewrite filter_In; tauto].
  destruct (toggleAttendance_shape eventId att pid FIsGoing)
    as (rec & E & Hrec & _ & Hgo).
  destruct (Hgo eq_refl) as [Hn Hg].
  rewrite E, find_app_split, (find_filter_out
                                (fun a => (EventAttendance.playerId a =? pid)%string)).
  - simpl. rewrite Hrec, String.eqb_refl, Hn, Hg.
    destruct (find (fun a => (EventAttendance.playerId a =? pid)%string) att) as [a|].
    + destruct (EventAttendance.isGoing a); simpl; intuition congruence.
    + simpl. tauto.
  - intros y Hy. now rewrite Hy.
Qed.

(** X14. Two toggles of isGoing do not restore the record: they leave
    needsRide equal to isGoing, whatever needsRide was. So a player who was
    going and had opted out of the ride comes back as needing one, and is a
    candidate again. *)
Theorem going_off_on_resets_needsRide (eventId : ID) (att : list EventAttendance.t)
        (pid : ID) :
  toggleAttendance eventId (toggleAttendance eventId att pid FIsGoing) pid FIsGoing
  = filter (fun a => negb (EventAttendance.playerId a =? pid)%string) att
      ++ [match find (fun a => (EventAttendance.playerId a =? pid)%string) att with
          | Some a =>
              EventAttendance.mk (EventAttendance.eventId a) (EventAttendance.playerId a)
                                 (EventAttendance.isGoing a) (EventAttendance.isGoing a)
          | None => EventAttendance.mk eventId pid false false
          end].
Proof.
  unfold toggleAttendance at 1.
  assert (Hf : forall rec,
             EventAttendance.playerId rec = pid ->
             find (fun a => (EventAttendance.playerId a =? pid)%string)
                  (filter (fun a => negb (EventAttendance.playerId a =? pid)%string) att
                     ++ [rec]) = Some rec).
  { intros rec Hrec. rewrite find_app_split,
      (find_filter_out (fun a => (EventAttendance.playerId a =? pid)%string)).
    - simpl. now rewrite Hrec, String.eqb_refl.
    - intros y Hy. now rewrite Hy. }
  assert (Hk : forall rec,
             EventAttendance.playerId rec = pid ->
             filter (fun a => negb (EventAttendance.playerId a =? pid)%string)
                    (filter (fun a => negb (EventAttendance.playerId a =? pid)%string) att
                       ++ [rec])
             = filter (fun a => negb (EventAttendance.playerId a =? pid)%string) att).
  { intros rec Hrec. rewrite filter_app,
      (filter_idem (fun a => negb (EventAttendance.playerId a =? pid)%string)).
    simpl. rewrite Hrec, String.eqb_refl. simpl. now rewrite app_nil_r. }
  unfold toggleAttendance.
  destruct (find (fun a => (EventAttendance.playerId a =? pid)%string) att)
    as [ex|] eqn:Ef.
  - apply find_some in Ef. destruct Ef as [_ Hex]. apply String.eqb_eq in Hex.
    destruct (EventAttendance.isGoing ex) eqn:Eg; simpl;
      rewrite Hf by (simpl; exact Hex); rewrite Hk by (simpl; exact Hex);
      simpl; reflexivity.
  - simpl. rewrite Hf by reflexivity. rewrite Hk by reflexivity. reflexivity.
Qed.

(* ------------------------------------------------------------------------- *)
(** ** The stored tables *)

Lemma filter_filter_imp {A : Type} (g h : A -> bool) (l : list A) :
  (forall x, g x = true -> h x = true) -> filter g (filter h l) = filter g l.
Proof.
  intros H. induction l as [|x l IH]; simpl; auto.
  destruct (g x) eqn:Eg.
  - rewrite (H x Eg). simpl. now rewrite Eg, IH.
  - destruct (h x); simpl; auto. now rewrite Eg.
Qed.

Lemma eqb_other (e e' x : ID) :
  e' <> e -> (x =? e')%string = true -> negb (x =? e)%string = true.
Proof.
  intros Hne H. apply String.eqb_eq in H. apply negb_true_iff, String.eqb_neq.
  congruence.
Qed.

(** X15. Saving attendance and reloading the event gives back the local
    list as it is (the local rows being rows of the event), leaves what
    every other event loads untouched, and saving twice is saving once. *)
Theorem saveAttendance_round_trip (eventId : ID) (localAttendance : list EventAttendance.t)
        (db : Tables) :
  (forall a, In a localAttendance -> EventAttendance.eventId a = eventId) ->
  viewAttendance (navigateToEvent eventId (fst (saveAttendance eventId localAttendance db)))
  = localAttendance /\
  (forall e', e' <> eventId ->
              navigateToEvent e' (fst (saveAttendance eventId localAttendance db))
              = navigateToEvent e' db) /\
  fst (saveAttendance eventId localAttendance
                      (fst (saveAttendance eventId localAttendance db)))
  = fst (saveAttendance eventId localAttendance db).
Proof.
  intros Hev. unfold saveAttendance, navigateToEvent. simpl. split; [|split].
  - rewrite filter_app, filter_filter_neg. simpl.
    apply filter_all. intros a Ha. apply String.eqb_eq. now apply Hev.
  - intros e' Hne. f_equal. rewrite filter_app.
    rewrite (filter_filter_imp (fun a => (EventAttendance.eventId a =? e')%string)).
    + rewrite (filter_none _ localAttendance); [now rewrite app_nil_r|].
      intros a Ha. apply String.eqb_neq. rewrite (Hev a Ha). congruence.
    + intros x. now apply eqb_other.
  - f_equal. f_equal. rewrite filter_app.
    rewrite (filter_idem (fun a => negb (EventAttendance.eventId a =? eventId)%string)).
    rewrite (filter_none _ localAttendance); [now rewrite app_nil_r|].
    intros a Ha. apply negb_false_iff, String.eqb_eq. now apply Hev.
Qed.

Lemma saveAttendance_round_trip_witness :
  viewAttendance
    (navigateToEvent Sample.ev
       (fst (saveAttendance Sample.ev
               (toggleAttendance Sample.ev [Demo.att_ann; Demo.att_bob] "p2" FIsGoing)
               Demo.tables)))
  = [Demo.att_ann; EventAttendance.mk Sample.ev "p2" true true] /\
  navigateToEvent "ev0"
    (fst (saveAttendance Sample.ev
            (toggleAttendance Sample.ev [Demo.att_ann; Demo.att_bob] "p2" FIsGoing)
            Demo.tables))
  = navigateToEvent "ev0" Demo.tables.
Proof.
  destruct (saveAttendance_round_trip Sample.ev
              (toggleAttendance Sample.ev [Demo.att_ann; Demo.att_bob] "p2" FIsGoing)
              Demo.tables) as (H1 & H2 & _).
  - intros a [<- | [<- | []]]; reflexivity.
  - split; [exact H1|]. apply H2. discriminate.
Defined.

(** X16. Deleting an event (confirmed) removes all its carpool data and
    nothing else: loading the deleted event gives three empty lists, every
    other event loads what it loaded before, the roster is untouched, the
    event list is the prop without the event, and one ride per player and
    event still holds in the stored assignments. Declining the confirmation
    changes nothing. *)
Theorem deleteEvent_clears_event (events : list Event.t) (id : ID) (db : Tables) :
  navigateToEvent id (deleteEvent true events id db) = mkView [] [] [] /\
  (forall e', e' <> id ->
              navigateToEvent e' (deleteEvent true events id db)
              = navigateToEvent e' db) /\
  tc_players (deleteEvent true events id db) = tc_players db /\
  tc_drivers (deleteEvent true events id db) = tc_drivers db /\
  (forall ev, In ev (tc_events (deleteEvent true events id db)) <->
              In ev events /\ Event.id ev <> id) /\
  (singleRide (tc_assignments db) ->
   singleRide (tc_assignments (deleteEvent true events id db))) /\
  deleteEvent false events id db = db.
Proof.
  unfold deleteEvent, navigateToEvent. simpl.
  split; [now rewrite !filter_filter_neg|].
  split.
  { intros e' Hne. f_equal;
      apply filter_filter_imp; intros x; now apply eqb_other. }
  split; [reflexivity|]. split; [reflexivity|]. split.
  { intros ev. rewrite filter_In, negb_true_iff, String.eqb_neq. tauto. }
  split; [apply singleRide_filter | reflexivity].
Qed.

(** X17. Saving a player. Adding puts the player first, so a lookup by id
    finds the new player even when the id was already taken. Editing keeps
    the ids and their order, replaces every entry that has the player's id,
    and silently changes nothing when no entry has it. *)
Theorem savePlayer_lookup (player : Player.t) (db : Tables) :
  find (fun x => (Player.id x =? Player.id player)%string)
       (tc_players (savePlayer false player db)) = Some player /\
  map Player.id (tc_players (savePlayer true player db)) = map Player.id (tc_players db) /\
  (forall q, In q (tc_players (savePlayer true player db)) ->
             Player.id q = Player.id player -> q = player) /\
  (forall q, In q (tc_players db) -> Player.id q <> Player.id player ->
             In q (tc_players (savePlayer true player db))) /\
  (find (fun x => (Player.id x =? Player.id player)%string) (tc_players db) = None ->
   savePlayer true player db = db) /\
  (find (fun x => (Player.id x =? Player.id player)%string) (tc_players db) <> None ->
   find (fun x => (Player.id x =? Player.id player)%string)
        (tc_players (savePlayer true player db)) = Some player).
Proof.
  unfold savePlayer. simpl. split; [now rewrite String.eqb_refl|].
  split; [|split; [|split; [|split]]].
  - rewrite map_map. apply map_ext_in. intros q _.
    destruct (String.eqb_spec (Player.id q) (Player.id player)); congruence.
  - intros q Hq Hid. apply in_map_iff in Hq. destruct Hq as (x & Hx & _).
    destruct (String.eqb_spec (Player.id x) (Player.id player)); congruence.
  - intros q Hq Hne. apply in_map_iff. exists q. split; auto.
    apply String.eqb_neq in Hne. now rewrite Hne.
  - intros Hnone. destruct db as [ps ds es at_ eds asg]. simpl in *. f_equal.
    rewrite <- (map_id ps) at 2. apply map_ext_in. intros q Hq.
    apply (find_none _ _ Hnone) in Hq. now rewrite Hq.
  - intros Hsome. induction (tc_players db) as [|x l IH]; simpl in *; [congruence|].
    destruct (String.eqb_spec (Player.id x) (Player.id player)) as [Heq | Hne]; simpl.
    + now rewrite String.eqb_refl.
    + apply String.eqb_neq in Hne. rewrite Hne. now apply IH.
Qed.

Lemma columnCards_length (players : list Player.t) (assigned : list Assignment.t) :
  (List.length (columnCards players assigned)
   + List.length
       (filter (fun a =>
                  match find (fun x => (Player.id x =? Assignment.playerId a)%string)
                             players with
                  | Some _ => false
                  | None => true
                  end) assigned)
   = List.length assigned)%nat.
Proof.
  unfold columnCards. induction assigned as [|a l IH]; simpl; auto.
  rewrite length_app.
  destruct (find (fun x => (Player.id x =? Assignment.playerId a)%string) players);
    simpl; lia.
Qed.

(** X18. Deleting a player (confirmed) does not cascade: the attendance and
    assignment tables keep the player's rows. A later run over the remaining
    roster emits no row for the deleted id, whatever the attendance says;
    on the board the player's stored rows render no card, yet each still
    counts in the load of its column. *)
Theorem deleteItem_player_no_cascade (rnd : nat -> ID) (eventId id : ID)
        (rules : list Eligibility.t) (att : list EventAttendance.t)
        (active : list EventDriver.t) (db : Tables) (rows : list Assignment.t) :
  tc_attendance (deleteItem true ItemPlayers id db) = tc_attendance db /\
  tc_assignments (deleteItem true ItemPlayers id db) = tc_assignments db /\
  (exists st,
      runPass rnd eventId rules active
              (goingPlayers (tc_players (deleteItem true ItemPlayers id db)) att)
      = Some st /\
      forall a, In a (newAssignments st) -> Assignment.playerId a <> id) /\
  columnCards (tc_players (deleteItem true ItemPlayers id db))
              (filter (fun a => (Assignment.playerId a =? id)%string) rows) = [] /\
  (List.length (columnCards (tc_players (deleteItem true ItemPlayers id db)) rows)
   + List.length (filter (fun a => (Assignment.playerId a =? id)%string) rows)
   <= List.length rows)%nat.
Proof.
  simpl. split; [reflexivity|]. split; [reflexivity|].
  assert (Hgone : forall a,
             (Assignment.playerId a =? id)%string = true ->
             find (fun x => (Player.id x =? Assignment.playerId a)%string)
                  (filter (fun i => negb (Player.id i =? id)%string) (tc_players db))
             = None).
  { intros a Ha. apply String.eqb_eq in Ha. rewrite Ha.
    apply find_filter_out. intros x Hx. now rewrite Hx. }
  split; [|split].
  - destruct (runPass_total rnd eventId rules active
                (goingPlayers (filter (fun i => negb (Player.id i =? id)%string)
                                      (tc_players db)) att)) as [st E].
    exists st. split; [exact E|]. intros a Ha Hid.
    destruct (runPass_rows _ _ _ _ _ _ E) as (Hm & _ & _).
    assert (Hin : In id (map Player.id
                             (sortedPlayers
                                (goingPlayers
                                   (filter (fun i => negb (Player.id i =? id)%string)
                                           (tc_players db)) att)))).
    { rewrite <- Hm, <- Hid. now apply in_map. }
    apply in_map_iff in Hin. destruct Hin as (p & Hp & Hin).
    rewrite sortedPlayers_eq in Hin.
    assert (Hg : In p (goingPlayers (filter (fun i => negb (Player.id i =? id)%string)
                                            (tc_players db)) att)).
    { apply in_app_or in Hin. destruct Hin as [Hin | Hin]; now apply filter_In in Hin. }
    unfold goingPlayers in Hg. apply filter_In in Hg. destruct Hg as [Hg _].
    apply filter_In in Hg. destruct Hg as [_ Hne].
    apply negb_true_iff, String.eqb_neq in Hne. contradiction.
  - unfold columnCards. induction rows as [|a l IH]; simpl; auto.
    destruct (Assignment.playerId a =? id)%string eqn:Ea; auto.
    simpl. now rewrite (Hgone a Ea).
  - pose proof (columnCards_length
                  (filter (fun i => negb (Player.id i =? id)%string) (tc_players db))
                  rows) as Hlen.
    assert (Hle : (List.length (filter (fun a => (Assignment.playerId a =? id)%string) rows)
                   <= List.length
                        (filter (fun a =>
                           match find (fun x => (Player.id x
                                                 =? Assignment.playerId a)%string)
                                      (filter (fun i => negb (Player.id i =? id)%string)
                                              (tc_players db)) with
                           | Some _ => false
                           | None => true
                           end) rows))%nat).
    { clear Hlen. induction rows as [|a l IH]; simpl; auto.
      destruct (Assignment.playerId a =? id)%string eqn:Ea.
      - rewrite (Hgone a Ea). simpl. lia.
      - destruct (find _ _); simpl; lia. }
    lia.
Qed.

(* ------------------------------------------------------------------------- *)
(** ** The buckets at the end of a pass *)

Section Bookkeeping.
Variable rnd : nat -> ID.
Variable eventId : ID.
Variable rules : list Eligibility.t.
Variable active : list EventDriver.t.
Hypothesis distinct : NoDup (map EventDriver.driverId active).
Hypothesis real : ~ In unassigned (map EventDriver.driverId active).

Lemma bookkeeping_step (done : list Player.t) (st : LoopState) (p : Player.t)
      (st' : LoopState) :
  (List.length (buckets st) = List.length active /\
   forall k d,
     nth_error active k = Some d ->
     exists b,
       nth_error (buckets st) k = Some b /\ Bucket.base b = d /\
       Bucket.assignedPlayerIds b
       = map Assignment.playerId
             (filter (fun a => (Assignment.driverId a =? EventDriver.driverId d)%string)
                     (newAssignments st)) /\
       Bucket.remainingSeats b
       = Nat.iter (List.length (Bucket.assignedPlayerIds b)) js_dec
                  (EventDriver.availableSeatsTotal d)) ->
  processPlayer rnd eventId rules st p = Some st' ->
  (List.length (buckets st') = List.length active /\
   forall k d,
     nth_error active k = Some d ->
     exists b,
       nth_error (buckets st') k = Some b /\ Bucket.base b = d /\
       Bucket.assignedPlayerIds b
       = map Assignment.playerId
             (filter (fun a => (Assignment.driverId a =? EventDriver.driverId d)%string)
                     (newAssignments st')) /\
       Bucket.remainingSeats b
       = Nat.iter (List.length (Bucket.assignedPlayerIds b)) js_dec
                  (EventDriver.availableSeatsTotal d)).
Proof.
  intros (Hlb & Hinv) E.
  destruct (processPlayer_cases rnd eventId rules st p)
    as [[_ E'] | (k & b & (Hk & _) & E')]; rewrite E' in E; injection E as <-; simpl.
  - split; [exact Hlb|]. intros j d Hj.
    destruct (Hinv j d Hj) as (bj & Hbj & Hbase & Hl & Hr).
    exists bj. rewrite filter_app. cbn [filter Assignment.driverId].
    assert (Hne : (unassigned =? EventDriver.driverId d)%string = false).
    { apply String.eqb_neq. intros Heq. apply real. rewrite Heq.
      apply in_map. eapply nth_error_In; eauto. }
    rewrite Hne, app_nil_r. auto.
  - assert (Hkd : exists dk, nth_error active k = Some dk).
    { destruct (nth_error active k) as [dk|] eqn:Ek; eauto.
      apply nth_error_None in Ek.
      assert (k < List.length (buckets st))%nat by (apply nth_error_Some; congruence).
      lia. }
    destruct Hkd as [dk Hdk].
    destruct (Hinv k dk Hdk) as (bk & Hbk & Hbase & Hl & Hr).
    rewrite Hk in Hbk. injection Hbk as <-.
    assert (Hdid : Bucket.driverId b = EventDriver.driverId dk)
      by (unfold Bucket.driverId; now rewrite Hbase).
    split; [now rewrite length_update|]. intros j d Hj.
    rewrite filter_app, map_app. cbn [filter Assignment.driverId]. rewrite Hdid.
    destruct (Nat.eq_dec j k) as [-> | Hjk].
    + rewrite Hdk in Hj. injection Hj as <-. rewrite String.eqb_refl.
      cbn [map Assignment.playerId].
      exists (seat p b).
      rewrite (nth_error_update_eq _ _ _ _ Hk), seat_base, seat_lists,
        seat_remainingSeats, Hl, Hr.
      repeat split; auto. rewrite !length_app. simpl.
      rewrite Nat.add_1_r. simpl. now rewrite Hl.
    + destruct (Hinv j d Hj) as (bj & Hbj & Hbase' & Hl' & Hr').
      exists bj. rewrite nth_error_update_neq by congruence.
      assert (Hne : (EventDriver.driverId dk =? EventDriver.driverId d)%string = false).
      { apply String.eqb_neq. intros Heq. apply Hjk. symmetry.
        exact (NoDup_map_nth EventDriver.driverId active k j dk d distinct Hdk Hj Heq). }
      rewrite Hne. cbn [map]. rewrite app_nil_r. auto.
Qed.
End Bookkeeping.

(** X19. The buckets agree with the rows. With distinct driver ids, none of
    them 'unassigned', the bucket of every active record ends the pass with
    [assignedPlayerIds] equal to the players of the rows that name its
    driver, in order, and with [remainingSeats] equal to the record's
    [availableSeatsTotal] decremented once per listed player. *)
Theorem buckets_agree_with_rows (rnd : nat -> ID) (eventId : ID)
        (rules : list Eligibility.t) (active : list EventDriver.t)
        (going : list Player.t) :
  NoDup (map EventDriver.driverId active) ->
  ~ In unassigned (map EventDriver.driverId active) ->
  exists st,
    runPass rnd eventId rules active going = Some st /\
    List.length (buckets st) = List.length active /\
    forall k d,
      nth_error active k = Some d ->
      exists b,
        nth_error (buckets st) k = Some b /\ Bucket.base b = d /\
        Bucket.assignedPlayerIds b
        = map Assignment.playerId
              (filter (fun a => (Assignment.driverId a =? EventDriver.driverId d)%string)
                      (newAssignments st)) /\
        Bucket.remainingSeats b
        = Nat.iter (List.length (Bucket.assignedPlayerIds b)) js_dec
                   (EventDriver.availableSeatsTotal d).
Proof.
  intros Hnd Hreal.
  destruct (runPass_total rnd eventId rules active going) as [st E].
  exists st. split; [exact E|]. unfold runPass in E.
  refine (processPlayers_invariant rnd eventId rules
            (fun _ s =>
               List.length (buckets s) = List.length active /\
               forall k d,
                 nth_error active k = Some d ->
                 exists b,
                   nth_error (buckets s) k = Some b /\ Bucket.base b = d /\
                   Bucket.assignedPlayerIds b
                   = map Assignment.playerId
                         (filter (fun a => (Assignment.driverId a
                                            =? EventDriver.driverId d)%string)
                                 (newAssignments s)) /\
                   Bucket.remainingSeats b
                   = Nat.iter (List.length (Bucket.assignedPlayerIds b)) js_dec
                              (EventDriver.availableSeatsTotal d))
            (bookkeeping_step rnd eventId rules active Hnd Hreal)
            _ [] _ st _ E).
  simpl. split; [unfold mkBuckets; apply length_map|].
  intros k d Hk. exists (mkBucket d). rewrite mkBuckets_nth, Hk. simpl. auto.
Qed.

Lemma buckets_agree_with_rows_witness :
  exists st,
    runPass Sample.ids Sample.ev [] [Sample.dana_drives; Sample.eli_drives]
            [Sample.ann; Sample.bob; Sample.cy] = Some st /\
    map Bucket.assignedPlayerIds (buckets st) = [["p1"; "p2"]; ["p3"]] /\
    map Assignment.driverId (newAssignments st) = ["d1"; "d1"; "d2"].
Proof.
  destruct (buckets_agree_with_rows Sample.ids Sample.ev []
              [Sample.dana_drives; Sample.eli_drives]
              [Sample.ann; Sample.bob; Sample.cy]) as (st & E & _ & _).
  - nodup_concrete.
  - simpl. intros [H | [H | []]]; discriminate H.
  - exists st. split; [exact E|]. vm_compute in E. injection E as <-.
    split; reflexivity.
Defined.

(* ------------------------------------------------------------------------- *)
(** ** Capacity, record by record *)


Section Capacity.
Variable rnd : nat -> ID.
Variable eventId : ID.
Variable rules : list Eligibility.t.
Variable active : list EventDriver.t.
Variable k : nat.
Variable d : EventDriver.t.
Hypothesis slot : nth_error active k = Some d.



End Capacity.




(* ------------------------------------------------------------------------- *)
(** ** The choice, at every step of the pass *)

Section Steps.
Variable rnd : nat -> ID.
Variable eventId : ID.
Variable rules : list Eligibility.t.

Lemma processPlayers_rows_grow (ps : list Player.t) :
  forall st st',
    processPlayers rnd eventId rules st ps = Some st' ->
    exists more, newAssignments st' = newAssignments st ++ more /\
                 List.length more = List.length ps.
Proof.
  induction ps as [|p ps IH]; intros st st' E; simpl in E.
  - injection E as <-. exists []. now rewrite app_nil_r.
  - destruct (processPlayer rnd eventId rules st p) as [st1|] eqn:E1; [|discriminate].
    destruct (IH _ _ E) as (more & Hm & Hl).
    assert (exists a, newAssignments st1 = newAssignments st ++ [a]) as [a Ha].
    { destruct (processPlayer_cases rnd eventId rules st p)
        as [[_ E'] | (k & b & _ & E')]; rewrite E' in E1; injection E1 as <-;
        eexists; reflexivity. }
    exists (a :: more). rewrite Hm, Ha, <- app_assoc. split; [reflexivity|].
    simpl. now rewrite Hl.
Qed.

(** A run split at a candidate: the state before the candidate, the state
    after, and the final state, whose rows extend the earlier ones. *)
Lemma processPlayers_split (init : LoopState) (done : list Player.t) (p : Player.t)
      (rest : list Player.t) :
  exists st0 st1 stF,
    processPlayers rnd eventId rules init done = Some st0 /\
    processPlayer rnd eventId rules st0 p = Some st1 /\
    processPlayers rnd eventId rules st1 rest = Some stF /\
    processPlayers rnd eventId rules init (done ++ [p]) = Some st1 /\
    processPlayers rnd eventId rules init (done ++ p :: rest) = Some stF.
Proof.
  destruct (processPlayers_total rnd eventId rules done init) as [st0 E0].
  destruct (processPlayer_total rnd eventId rules st0 p) as [st1 E1].
  destruct (processPlayers_total rnd eventId rules rest st1) as [stF EF].
  exists st0, st1, stF. rewrite !processPlayers_app, E0. simpl. rewrite E1.
  auto.
Qed.



Lemma rows_after (active : list EventDriver.t) (ps : list Player.t) (st : LoopState) :
  processPlayers rnd eventId rules (mkLoop (mkBuckets active) [] [] O) ps = Some st ->
  rows_track eventId ps st.
Proof.
  intros E.
  apply (processPlayers_invariant rnd eventId rules (rows_track eventId)
           (rows_track_step rnd eventId rules) ps [] _ st) in E; auto.
  split; [reflexivity|]. split; [|reflexivity]. intros a [].
Qed.
End Steps.




(* ------------------------------------------------------------------------- *)
(** ** The order of the pass *)

(** C6. The generator handles the candidates in this order: every player
    who needs a child seat, in input order, then every player who does not,
    in input order (the sort is stable inside each group). The pass runs
    over that list: its rows are, position by position, the rows of the
    players in that order, and the candidate at position [length done] is
    decided on the buckets the candidates [done] before it have left, after
    which the remaining candidates follow. *)
Theorem child_seat_first_stable (rnd : nat -> ID) (eventId : ID)
        (rules : list Eligibility.t) (allPlayers : list Player.t)
        (localAttendance : list EventAttendance.t)
        (localEventDrivers : list EventDriver.t) :
  let going := goingPlayers allPlayers localAttendance in
  let order := filter Player.needsChildSeat going
                 ++ filter (fun p => negb (Player.needsChildSeat p)) going in
  let start := mkLoop (mkBuckets (activeDrivers localEventDrivers)) [] [] O in
  sortedPlayers going = order
  /\ filter Player.needsChildSeat (sortedPlayers going)
     = filter Player.needsChildSeat going
  /\ filter (fun p => negb (Player.needsChildSeat p)) (sortedPlayers going)
     = filter (fun p => negb (Player.needsChildSeat p)) going
  /\ exists st,
       runPass rnd eventId rules (activeDrivers localEventDrivers) going = Some st /\
       map Assignment.playerId (newAssignments st) = map Player.id order /\
       forall done p rest,
         order = done ++ p :: rest ->
         exists st0 st1,
           processPlayers rnd eventId rules start done = Some st0 /\
           processPlayer rnd eventId rules st0 p = Some st1 /\
           processPlayers rnd eventId rules st1 rest = Some st /\
           newAssignments st0 = firstn (List.length done) (newAssignments st) /\
           newAssignments st1 = firstn (S (List.length done)) (newAssignments st).
Proof.
  intros going order start.
  assert (Hsort : sortedPlayers going = order) by apply sortedPlayers_eq.
  split; [exact Hsort|]. rewrite Hsort. unfold order.
  rewrite !filter_app, !filter_idem.
  rewrite (filter_filter_neg Player.needsChildSeat).
  assert (Hnone : filter (fun p => negb (Player.needsChildSeat p))
                         (filter Player.needsChildSeat going) = []).
  { apply filter_none. intros a Ha. apply filter_In in Ha.
    destruct Ha as [_ ->]. reflexivity. }
  rewrite Hnone, app_nil_r. split; [reflexivity|]. split; [reflexivity|].
  destruct (runPass_total rnd eventId rules (activeDrivers localEventDrivers) going)
    as [st E].
  exists st. split; [exact E|].
  destruct (runPass_rows rnd eventId rules _ _ st E) as (Hids & _ & _).
  rewrite Hsort in Hids. split; [exact Hids|].
  intros done p rest Hsplit.
  destruct (processPlayers_split rnd eventId rules start done p rest)
    as (st0 & st1 & stF & E0 & E1 & ER & E01 & EF).
  unfold runPass in E. rewrite Hsort in E. unfold order in E. rewrite Hsplit in E.
  unfold start in EF. rewrite EF in E. injection E as ->.
  exists st0, st1. split; [exact E0|]. split; [exact E1|]. split; [exact ER|].
  destruct (rows_after rnd eventId rules _ done st0 E0) as (_ & _ & Hl0).
  destruct (rows_after rnd eventId rules _ (done ++ [p]) st1 E01) as (_ & _ & Hl1).
  rewrite length_app, Nat.add_1_r in Hl1.
  destruct (processPlayers_rows_grow rnd eventId rules (p :: rest) st0 st) as (m0 & Hm0 & _).
  { simpl. now rewrite E1. }
  destruct (processPlayers_rows_grow rnd eventId rules rest st1 st ER) as (m1 & Hm1 & _).
  split.
  - rewrite Hm0, <- Hl0, firstn_app, Nat.sub_diag, firstn_all. simpl.
    now rewrite app_nil_r.
  - rewrite Hm1, <- Hl1, firstn_app, Nat.sub_diag, firstn_all. simpl.
    now rewrite app_nil_r.
Qed.

(* ------------------------------------------------------------------------- *)
(** ** The event screen: reloads and unsaved ticks *)

(** [World] is the assignments part of the screen: the two handlers
    commute with the projection. *)
Lemma world_refreshData (eventId : ID) (s : Screen.t) :
  Screen.world (Screen.refreshData eventId s) = refreshData eventId (Screen.world s).
Proof. reflexivity. Qed.

Lemma world_generateCarpool (rnd : nat -> ID) (eventId : ID)
      (allPlayers : list Player.t) (rules : list Eligibility.t) (s : Screen.t) :
  option_map Screen.world (Screen.generateCarpool rnd eventId allPlayers rules s)
  = generateCarpool rnd eventId allPlayers rules (Screen.sc_localAttendance s)
                    (Screen.sc_localEventDrivers s) (Screen.world s).
Proof.
  unfold Screen.generateCarpool, generateCarpool.
  destruct (List.length (activeDrivers (Screen.sc_localEventDrivers s)) =? 0)%nat;
    [reflexivity|].
  destruct (runPass rnd eventId rules (activeDrivers (Screen.sc_localEventDrivers s))
                    (goingPlayers allPlayers (Screen.sc_localAttendance s)));
    reflexivity.
Qed.

Lemma world_handleDrop (rnd : nat -> ID) (props : BoardProps)
      (dragged : option ID) (target : ID) (s : Screen.t) :
  (Screen.world (fst (Screen.handleDrop rnd props dragged target s)),
   snd (Screen.handleDrop rnd props dragged target s))
  = handleDrop rnd props dragged target (Screen.world s).
Proof.
  unfold Screen.handleDrop, handleDrop.
  destruct (falsy dragged); [reflexivity|]. destruct dragged; reflexivity.
Qed.

Lemma screen_generate_no_drivers (rnd : nat -> ID) (eventId : ID)
      (allPlayers : list Player.t) (rules : list Eligibility.t) (s : Screen.t) :
  activeDrivers (Screen.sc_localEventDrivers s) = [] ->
  Screen.generateCarpool rnd eventId allPlayers rules s
  = Some (Screen.alert noDriversMessage s).
Proof. unfold Screen.generateCarpool. now intros ->. Qed.

Lemma screen_generate_run (rnd : nat -> ID) (eventId : ID)
      (allPlayers : list Player.t) (rules : list Eligibility.t) (s : Screen.t) :
  activeDrivers (Screen.sc_localEventDrivers s) <> [] ->
  exists st,
    runPass rnd eventId rules (activeDrivers (Screen.sc_localEventDrivers s))
            (goingPlayers allPlayers (Screen.sc_localAttendance s)) = Some st /\
    Screen.generateCarpool rnd eventId allPlayers rules s
    = Some (Screen.alert (generatedMessage (List.length (unassignedIds st)))
              (Screen.setTab TabCarpool
                 (Screen.refreshData eventId
                    (Screen.setAssignments
                       (filter (fun a => negb (Assignment.eventId a =? eventId)%string)
                               (tc_assignments (Screen.db s))
                          ++ newAssignments st) s)))).
Proof.
  intros Hne. unfold Screen.generateCarpool.
  destruct (activeDrivers (Screen.sc_localEventDrivers s)) as [|d l] eqn:Ha;
    [congruence|].
  simpl List.length. cbv iota beta. simpl Nat.eqb. cbv iota.
  destruct (runPass_total rnd eventId rules (d :: l)
              (goingPlayers allPlayers (Screen.sc_localAttendance s))) as [st E].
  exists st. split; [exact E|]. now rewrite E.
Qed.

(** A run reads the local lists, the tables, the tab and the alerts, and
    of the stored assignments only the rows of other events. *)
Lemma screen_generate_ext (rnd : nat -> ID) (eventId : ID)
      (allPlayers : list Player.t) (rules : list Eligibility.t) (s s' : Screen.t) :
  activeDrivers (Screen.sc_localEventDrivers s) <> [] ->
  Screen.sc_localAttendance s' = Screen.sc_localAttendance s ->
  Screen.sc_localEventDrivers s' = Screen.sc_localEventDrivers s ->
  tc_players (Screen.db s') = tc_players (Screen.db s) ->
  tc_drivers (Screen.db s') = tc_drivers (Screen.db s) ->
  tc_events (Screen.db s') = tc_events (Screen.db s) ->
  tc_attendance (Screen.db s') = tc_attendance (Screen.db s) ->
  tc_eventDrivers (Screen.db s') = tc_eventDrivers (Screen.db s) ->
  filter (fun a => negb (Assignment.eventId a =? eventId)%string)
         (tc_assignments (Screen.db s'))
  = filter (fun a => negb (Assignment.eventId a =? eventId)%string)
           (tc_assignments (Screen.db s)) ->
  Screen.sc_tab s' = Screen.sc_tab s ->
  Screen.sc_alerts s' = Screen.sc_alerts s ->
  Screen.generateCarpool rnd eventId allPlayers rules s'
  = Screen.generateCarpool rnd eventId allPlayers rules s.
Proof.
  intros Hne Ha Hd H1 H2 H3 H4 H5 H6 H7 H8.
  destruct (screen_generate_run rnd eventId allPlayers rules s Hne) as (st & R & ->).
  destruct (screen_generate_run rnd eventId allPlayers rules s') as (st' & R' & ->).
  { now rewrite Hd. }
  rewrite Ha, Hd, R in R'. injection R' as <-.
  unfold Screen.alert, Screen.setTab, Screen.refreshData, Screen.setAssignments,
    navigateToEvent. simpl.
  now rewrite H1, H2, H3, H4, H5, H6, H8.
Qed.

Lemma screen_drop_rows (rnd : nat -> ID) (props : BoardProps) (pid target : ID)
      (s : Screen.t) :
  pid <> "" ->
  fst (Screen.handleDrop rnd props (Some pid) target s)
  = Screen.refreshData (boardEventId props)
      (Screen.setAssignments
         (filter (fun a => negb (Assignment.eventId a =? boardEventId props)%string)
                 (tc_assignments (Screen.db s))
            ++ filter (fun a => negb (Assignment.playerId a =? pid)%string)
                      (viewAssignments (Screen.view s))
            ++ [Assignment.mk (rnd O) (boardEventId props) target pid dir_both]) s).
Proof.
  intros Hne. unfold Screen.handleDrop. simpl falsy.
  apply String.eqb_neq in Hne. now rewrite Hne.
Qed.

(** X5. Re-Calculate discards manual overrides, and unsaved ticks with
    them. When the rows on the board are rows of this event and the stored
    availability records of the event have an active driver: a run after a
    real drop leaves exactly the screen a run from the reloaded screen
    leaves (the drop has reloaded the attendance and availability lists
    from storage); and when nothing was ticked since the last save, a run
    after the drop leaves exactly the screen a run without the drop
    leaves. *)
Theorem recalculate_discards_override (rnd rnd' : nat -> ID) (props : BoardProps)
        (allPlayers : list Player.t) (rules : list Eligibility.t)
        (dragged : option ID) (target : ID) (s : Screen.t) :
  (forall a, In a (viewAssignments (Screen.view s)) ->
             Assignment.eventId a = boardEventId props) ->
  activeDrivers (viewEventDrivers (navigateToEvent (boardEventId props) (Screen.db s)))
  <> [] ->
  (falsy dragged = false ->
   Screen.generateCarpool rnd (boardEventId props) allPlayers rules
                          (fst (Screen.handleDrop rnd' props dragged target s))
   = Screen.generateCarpool rnd (boardEventId props) allPlayers rules
                            (Screen.refreshData (boardEventId props) s))
  /\
  (Screen.saved (boardEventId props) s ->
   Screen.generateCarpool rnd (boardEventId props) allPlayers rules
                          (fst (Screen.handleDrop rnd' props dragged target s))
   = Screen.generateCarpool rnd (boardEventId props) allPlayers rules s).
Proof.
  intros Hev Hne.
  assert (Hreal : forall pid, pid <> "" ->
            Screen.generateCarpool rnd (boardEventId props) allPlayers rules
              (fst (Screen.handleDrop rnd' props (Some pid) target s))
            = Screen.generateCarpool rnd (boardEventId props) allPlayers rules
                (Screen.refreshData (boardEventId props) s)).
  { intros pid Hpid. rewrite (screen_drop_rows _ _ _ _ _ Hpid).
    apply screen_generate_ext; try reflexivity; [exact Hne|].
    simpl. rewrite !filter_app, filter_neg_idem.
    rewrite (filter_neg_all (fun a => (Assignment.eventId a =? boardEventId props)%string)
               (filter (fun a => negb (Assignment.playerId a =? pid)%string)
                       (viewAssignments (Screen.view s)))).
    - simpl. rewrite String.eqb_refl. simpl. now rewrite app_nil_r.
    - intros a Ha. apply filter_In in Ha. apply String.eqb_eq. apply Hev, Ha. }
  split.
  - intros Hf. destruct dragged as [pid|]; [|discriminate]. simpl in Hf.
    apply String.eqb_neq in Hf. now apply Hreal.
  - intros [Hsa Hsd].
    assert (Hreload :
              Screen.generateCarpool rnd (boardEventId props) allPlayers rules
                (Screen.refreshData (boardEventId props) s)
              = Screen.generateCarpool rnd (boardEventId props) allPlayers rules s).
    { apply screen_generate_ext; try reflexivity; auto. now rewrite Hsd. }
    destruct (falsy dragged) eqn:Hf.
    + unfold Screen.handleDrop. now rewrite Hf.
    + destruct dragged as [pid|]; [|discriminate]. simpl in Hf.
      apply String.eqb_neq in Hf. now rewrite (Hreal pid Hf).
Qed.

(** On the demo screen Eli is ticked as driving but not saved: after Cy is
    dropped on Dana, a run gives what a run from the reloaded screen
    gives. *)
Lemma recalculate_discards_override_witness :
  Screen.generateCarpool Sample.ids Sample.ev [Sample.ann; Sample.bob; Sample.cy] []
    (fst (Screen.handleDrop Sample.ids' Sample.board (Some "p3") "d1" Demo.screen))
  = Screen.generateCarpool Sample.ids Sample.ev [Sample.ann; Sample.bob; Sample.cy] []
      (Screen.refreshData Sample.ev Demo.screen).
Proof.
  apply (recalculate_discards_override Sample.ids Sample.ids' Sample.board
           [Sample.ann; Sample.bob; Sample.cy] [] (Some "p3") "d1" Demo.screen).
  - intros a [<- | [<- | [<- | []]]]; reflexivity.
  - discriminate.
  - reflexivity.
Defined.

(** X6. Regeneration is idempotent up to the row ids, once the ticks are
    saved: when the local attendance and availability lists are the stored
    ones of the event, a second run on the screen the first one left
    stores and shows the same rows, in the same order, except for their
    [id] fields, and leaves the lists as they were. *)
Theorem regenerate_twice (rnd1 rnd2 : nat -> ID) (eventId : ID)
        (allPlayers : list Player.t) (rules : list Eligibility.t) (s : Screen.t) :
  Screen.saved eventId s ->
  exists s1 s2,
    Screen.generateCarpool rnd1 eventId allPlayers rules s = Some s1 /\
    Screen.generateCarpool rnd2 eventId allPlayers rules s1 = Some s2 /\
    map forget_id (tc_assignments (Screen.db s2))
    = map forget_id (tc_assignments (Screen.db s1)) /\
    map forget_id (viewAssignments (Screen.view s2))
    = map forget_id (viewAssignments (Screen.view s1)) /\
    Screen.sc_localAttendance s2 = Screen.sc_localAttendance s /\
    Screen.sc_localEventDrivers s2 = Screen.sc_localEventDrivers s /\
    Screen.sc_tab s2 = Screen.sc_tab s1.
Proof.
  intros [Hsa Hsd].
  destruct (activeDrivers (Screen.sc_localEventDrivers s)) as [|d l] eqn:Ha.
  - exists (Screen.alert noDriversMessage s),
      (Screen.alert noDriversMessage (Screen.alert noDriversMessage s)).
    rewrite !screen_generate_no_drivers by assumption. repeat split.
  - assert (Hne : activeDrivers (Screen.sc_localEventDrivers s) <> []) by congruence.
    destruct (screen_generate_run rnd1 eventId allPlayers rules s Hne)
      as (st1 & R1 & G1).
    set (s1 := Screen.alert (generatedMessage (List.length (unassignedIds st1)))
                 (Screen.setTab TabCarpool
                    (Screen.refreshData eventId
                       (Screen.setAssignments
                          (filter (fun a => negb (Assignment.eventId a =? eventId)%string)
                                  (tc_assignments (Screen.db s))
                             ++ newAssignments st1) s)))) in *.
    assert (Hla : Screen.sc_localAttendance s1 = Screen.sc_localAttendance s)
      by (rewrite Hsa; reflexivity).
    assert (Hld : Screen.sc_localEventDrivers s1 = Screen.sc_localEventDrivers s)
      by (rewrite Hsd; reflexivity).
    destruct (screen_generate_run rnd2 eventId allPlayers rules s1)
      as (st2 & R2 & G2).
    { now rewrite Hld. }
    exists s1. eexists. split; [exact G1|]. split; [exact G2|].
    rewrite Hla, Hld in R2.
    destruct (runPass_sim rnd1 rnd2 eventId rules
                          (activeDrivers (Screen.sc_localEventDrivers s))
                          (goingPlayers allPlayers (Screen.sc_localAttendance s)))
      as (t1 & t2 & R1' & R2' & (_ & _ & Hn)).
    rewrite R1 in R1'. rewrite R2 in R2'. injection R1' as <-. injection R2' as <-.
    assert (Hrows1 : forall a, In a (newAssignments st1) -> Assignment.eventId a = eventId).
    { destruct (runPass_rows _ _ _ _ _ _ R1) as (_ & Hall & _).
      intros a Hin. now apply Hall. }
    assert (Hrows2 : forall a, In a (newAssignments st2) -> Assignment.eventId a = eventId).
    { destruct (runPass_rows _ _ _ _ _ _ R2) as (_ & Hall & _).
      intros a Hin. now apply Hall. }
    simpl.
    rewrite !filter_app, filter_neg_idem.
    rewrite (filter_neg_all (fun a => (Assignment.eventId a =? eventId)%string)
                            (newAssignments st1))
      by (intros a Hin; apply String.eqb_eq; now apply Hrows1).
    rewrite app_nil_r, !filter_filter_neg. simpl.
    rewrite !(filter_all (fun a => (Assignment.eventId a =? eventId)%string))
      by (intros a Hin; apply String.eqb_eq; auto).
    rewrite !map_app, Hn. rewrite Hsa, Hsd. repeat split.
Qed.

(** A saved screen: everybody goes, Dana and Eli drive. *)
Lemma regenerate_twice_witness :
  exists s1 s2,
    Screen.generateCarpool Sample.ids Sample.ev [Sample.ann; Sample.bob; Sample.cy] []
                           Demo.saved_screen = Some s1 /\
    Screen.generateCarpool Sample.ids' Sample.ev [Sample.ann; Sample.bob; Sample.cy] []
                           s1 = Some s2 /\
    map forget_id (viewAssignments (Screen.view s2))
    = map forget_id (viewAssignments (Screen.view s1)).
Proof.
  destruct (regenerate_twice Sample.ids Sample.ids' Sample.ev
              [Sample.ann; Sample.bob; Sample.cy] [] Demo.saved_screen)
    as (s1 & s2 & G1 & G2 & _ & Hv & _).
  - split; reflexivity.
  - exists s1, s2. auto.
Defined.

(** With unsaved ticks the second run is another run: on the demo screen
    the first run seats the three players ticked on screen, and reloads;
    the second run, on the stored attendance, has no candidate and clears
    the board. *)
Example scenario_unsaved_ticks :
  exists s1 s2,
    Screen.generateCarpool Sample.ids Sample.ev [Sample.ann; Sample.bob; Sample.cy] []
                           Demo.screen = Some s1 /\
    map Assignment.driverId (viewAssignments (Screen.view s1)) = ["d1"; "d1"; "d2"] /\
    Screen.generateCarpool Sample.ids' Sample.ev [Sample.ann; Sample.bob; Sample.cy] []
                           s1 = Some s2 /\
    viewAssignments (Screen.view s2) = [].
Proof.
  eexists. eexists. split; [vm_compute; reflexivity|].
  split; [reflexivity|]. split; [vm_compute; reflexivity|]. reflexivity.
Qed.

(* ------------------------------------------------------------------------- *)
(** ** Seat counts at the edges *)

(** A driver saved with both seat fields empty is stored with [null]
    counts; [null <= 0] holds, so the bucket is skipped and Bob stays
    unassigned. *)
Example scenario_cleared_fields :
  exists st,
    runPass Sample.ids Sample.ev [] (activeDrivers [Sample.zed_null]) [Sample.bob]
    = Some st /\
    map Assignment.driverId (newAssignments st) = [unassigned] /\
    unassignedIds st = ["p2"] /\
    map Bucket.remainingSeats (buckets st) = [JNull].
Proof.
  eexists. split; [vm_compute; reflexivity|]. repeat split.
Qed.

(** Two active records of one driver share their rows: each has one seat,
    and the driver is referenced by two rows. *)
Example scenario_two_records_one_driver :
  let one := EventDriver.mk Sample.ev "d1" true dir_both (JNum 1) (JNum 0) "" in
  exists st,
    runPass Sample.ids Sample.ev [] (activeDrivers [one; one]) [Sample.bob; Sample.cy]
    = Some st /\
    getDriverLoad (newAssignments st) "d1" = 2%nat /\
    map Bucket.remainingSeats (buckets st) = [JNum 0; JNum 0].
Proof.
  eexists. split; [vm_compute; reflexivity|]. split; reflexivity.
Qed.

(** Above 2^53 the decrement rounds: [2^53 + 2] gives [2^53], and [2^54]
    stays [2^54]. *)
Example scenario_rounded_decrement :
  js_dec (JNum (2 ^ 53 + 2)) = JNum (2 ^ 53) /\
  js_dec (JNum (2 ^ 54)) = JNum (2 ^ 54) /\
  js_dec (JNum (2 ^ 53)) = JNum (2 ^ 53 - 1) /\
  js_dec (JNum 3) = JNum 2.
Proof. repeat split. Qed.
